(** * The thriftrw-go code generator (gen/generator.go)

    A shallow embedding of [Generator], [renderTemplate],
    [DeclareFromTemplate], [Write] and [appendDecl], with the properties the
    specification states about them.

    The generator relies on three packages of the Go standard library
    (text/template, go/parser and go/format) and on the [importer] that is
    embedded in [Generator].  The embedding of generator.go is parametric in
    all four: they are the operations of the classes [Importer] and [GoLib].
    Concrete instances follow the generic development. *)

From Stdlib Require Import Ascii String.
From stdpp Require Import base option list gmap strings sorting pretty.

Local Open Scope string_scope.
Local Open Scope list_scope.
Local Open Scope nat_scope.
#[local] Set Warnings "-clear-no-such-hyp".

(** The line feed, written [\n] in Go. *)
Definition LF : string := String "010"%char "".

(** ** go/ast, as far as generator.go looks into it *)

Module ast.

(** [token.Token] of a general declaration. *)
Inductive Token := IMPORT | CONST | TYPE | VAR.

(** [ast.ImportSpec]: [Name] is the local name ([None] for a nil [Name]),
    [Path] the import path (the value of the literal, without its
    quotes). *)
Record ImportSpec := mkImportSpec { Name : option string; Path : string }.

(** [ast.Spec] is an interface with three implementations.  A type
    expression is kept as its identifier. *)
Inductive Spec :=
| ImportSpec_ (s : ImportSpec)
| ValueSpec (name : string) (type : string)
| TypeSpec (name : string) (type : string).

(** [ast.Decl] is an interface implemented by [*ast.GenDecl],
    [*ast.FuncDecl] and [*ast.BadDecl]. *)
Inductive Decl :=
| GenDecl (Tok : Token) (Specs : list Spec)
| FuncDecl (name : string) (text : string)
| BadDecl.

(** [ast.File], with the two fields generator.go reads or sets; [FileName]
    is its field [Name], the package name. *)
Record File := mkFile { FileName : string; Decls : list Decl }.

#[global] Instance Token_eq_dec : EqDecision Token.
Proof. solve_decision. Defined.
#[global] Instance ImportSpec_eq_dec : EqDecision ImportSpec.
Proof. solve_decision. Defined.
#[global] Instance Spec_eq_dec : EqDecision Spec.
Proof. solve_decision. Defined.
#[global] Instance Decl_eq_dec : EqDecision Decl.
Proof. solve_decision. Defined.

End ast.

(** ** Errors

    [DeclareFromTemplate] hands on, unchanged, the error value of the library
    call that failed.  The two libraries use different dynamic types:
    text/template returns its own error values (for [Parse] and for
    [Execute]), go/parser returns a [scanner.ErrorList]. *)

(** [token.Position]. *)
Record Position := mkPosition
  { Filename : string; Offset : nat; Line : nat; Column : nat }.

(** [scanner.Error]. *)
Record scanner_Error := mkScannerError { Pos : Position; Msg : string }.

Inductive error :=
| template_error (msg : string)
| scanner_ErrorList (errs : list scanner_Error).

(** What a call of a Go function of result type [error] can do: return nil,
    return an error, or panic. *)
Inductive ret := Nil | Error (e : error) | Panic.

#[global] Instance Position_eq_dec : EqDecision Position.
Proof. solve_decision. Defined.
#[global] Instance scanner_Error_eq_dec : EqDecision scanner_Error.
Proof. solve_decision. Defined.
#[global] Instance error_eq_dec : EqDecision error.
Proof. solve_decision. Defined.
#[global] Instance ret_eq_dec : EqDecision ret.
Proof. solve_decision. Defined.

(** ** Template execution

    While a template executes it may call the functions of the [FuncMap]:
    [goCase], [typeDeclName] and [typeReference], which compute strings from
    their arguments, three closures that return the constants [Required] and
    [Optional], and [import], which is bound to [g.Import] and is the only
    way in which an execution reaches the generator.  The data is a value:
    what a template reads from it depends on the data alone.  An execution is
    therefore a finite tree: it ends with the text it wrote, or with an
    error, or it calls [import] on a path and goes on with the alias it gets
    back. *)
Inductive Exec :=
| ExecDone (out : string)
| ExecFail (msg : string)
| ExecImport (path : string) (k : string → Exec).

(** ** The collaborators of generator.go *)

(** The [importer] embedded in [Generator] (gen/import.go, which is not part
    of the sources at hand): its constructor and its three methods.
    [Import] returns the alias and changes the importer, [addImportSpec]
    changes it (its result, if any, is dropped by the caller) and
    [importDecl] returns a declaration or nil. *)
Class Importer (I : Type) := {
  newImporter : I;
  Import : string → I → string * I;
  addImportSpec : ast.ImportSpec → I → I;
  importDecl : I → option ast.Decl
}.

(** The Go standard library as generator.go uses it.  [template_Parse] is
    [template.New(name).Funcs(funcs).Parse(s)], given the names of the
    functions of the [FuncMap]; [template_Execute] is [tmpl.Execute];
    [parser_ParseFile] is [parser.ParseFile] with a new file set and mode 0,
    given the file name and the source; [format_Node] is [format.Node], with
    the bytes it writes to the sink. *)
Class GoLib := {
  Template : Type;
  Data : Type;
  template_Parse : string → list string → string → Template + string;
  template_Execute : Template → Data → Exec;
  parser_ParseFile : string → string → ast.File + list scanner_Error;
  FileSet : Type;
  format_Node : FileSet → ast.File → string + string
}.

(** What reaches the importer: a call of [Import] from a template, or an
    import spec of a rendered snippet handed to [addImportSpec]. *)
Inductive ImportOp :=
| Requested (path : string)
| Merged (spec : ast.ImportSpec).

(** ** generator.go *)

Section Generator.
Context {I : Type} {IM : Importer I} {lib : GoLib}.

(** [type Generator struct { importer; decls []ast.Decl }] *)
Record Generator := mkGenerator { importer : I; decls : list ast.Decl }.

(** [NewGenerator] *)
Definition NewGenerator : Generator :=
  {| importer := newImporter; decls := [] |}.

(** The keys of [templateFuncs]. *)
Definition templateFuncs : list string :=
  ["goCase"; "import"; "defName"; "typeReference";
   "Required"; "Optional"; "required"].

(** [tmpl.Execute(buff, data)] against the generator: every call of
    [import] is a call of [g.Import]. *)
Fixpoint runExec (x : Exec) (i : I) : I * (string + string) :=
  match x with
  | ExecDone out => (i, inl out)
  | ExecFail msg => (i, inr msg)
  | ExecImport path k =>
      let '(alias, i') := Import path i in runExec (k alias) i'
  end.

(** [renderTemplate] *)
Definition renderTemplate (s : string) (data : Data) (g : Generator)
  : Generator * (string + error) :=
  match template_Parse "thriftrw" templateFuncs s with
  | inr err => (g, inr (template_error err))
  | inl tmpl =>
      let buff := "package thriftrw" +:+ LF +:+ LF in
      let '(i', r) := runExec (template_Execute tmpl data) (importer g) in
      let g' := {| importer := i'; decls := decls g |} in
      match r with
      | inr err => (g', inr (template_error err))
      | inl out => (g', inl (buff +:+ out))
      end
  end.

(** [appendDecl] *)
Definition appendDecl (decl : ast.Decl) (g : Generator) : Generator :=
  {| importer := importer g; decls := decls g ++ [decl] |}.

(** The inner loop of [DeclareFromTemplate]:
    [for _, imp := range imports], with the type assertion of [imp] to an
    import spec, which panics on any other kind of spec. *)
Fixpoint addImportSpecs (imports : list ast.Spec) (g : Generator)
  : Generator * ret :=
  match imports with
  | [] => (g, Nil)
  | ast.ImportSpec_ imp :: rest =>
      addImportSpecs rest
        {| importer := addImportSpec imp (importer g); decls := decls g |}
  | _ :: _ => (g, Panic)
  end.

(** The outer loop of [DeclareFromTemplate], [for _, decl := range f.Decls]. *)
Fixpoint declareDecls (ds : list ast.Decl) (g : Generator)
  : Generator * ret :=
  match ds with
  | [] => (g, Nil)
  | decl :: rest =>
      match decl with
      | ast.GenDecl ast.IMPORT imports =>
          match addImportSpecs imports g with
          | (g', Nil) => declareDecls rest g'
          | stopped => stopped
          end
      | _ => declareDecls rest (appendDecl decl g)
      end
  end.

(** [DeclareFromTemplate] *)
Definition DeclareFromTemplate (s : string) (data : Data) (g : Generator)
  : Generator * ret :=
  match renderTemplate s data g with
  | (g1, inr err) => (g1, Error err)
  | (g1, inl bs) =>
      match parser_ParseFile "thriftrw.go" bs with
      | inr errs => (g1, Error (scanner_ErrorList errs))
      | inl f => declareDecls (ast.Decls f) g1
      end
  end.

(** The [ast.File] that [Write] builds. *)
Definition writeFile (g : Generator) : ast.File :=
  let decls0 : list ast.Decl := [] in
  let decls1 :=
    match importDecl (importer g) with
    | Some d => decls0 ++ [d]
    | None => decls0
    end in
  {| ast.FileName := "todo"; ast.Decls := decls1 ++ decls g |}.

(** [Write]: the generator is only read; the result is what [format.Node]
    wrote to the sink, or its error. *)
Definition Write (fs : FileSet) (g : Generator)
  : Generator * (string + string) :=
  (g, format_Node fs (writeFile g)).

(** A caller that issues a sequence of [DeclareFromTemplate] calls, going
    on after an error and stopping at a panic. *)
Fixpoint declareAll (calls : list (string * Data)) (g : Generator)
  : Generator * list ret :=
  match calls with
  | [] => (g, [])
  | (s, data) :: rest =>
      match DeclareFromTemplate s data g with
      | (g', Panic) => (g', [Panic])
      | (g', r) => let '(g'', rs) := declareAll rest g' in (g'', r :: rs)
      end
  end.

(** *** Vocabulary of the properties *)

(** The declarations that [DeclareFromTemplate] hands to the importer. *)
Definition isImportDecl (d : ast.Decl) : bool :=
  match d with
  | ast.GenDecl ast.IMPORT _ => true
  | _ => false
  end.

(** The other declarations of a file, in the order of the file. *)
Definition ownDecls (f : ast.File) : list ast.Decl :=
  filter (λ d, isImportDecl d = false) (ast.Decls f).

(** The declarations of the snippet that a call renders in state [g]. *)
Definition snippet (s : string) (data : Data) (g : Generator)
  : list ast.Decl :=
  match renderTemplate s data g with
  | (_, inl bs) =>
      match parser_ParseFile "thriftrw.go" bs with
      | inl f => ownDecls f
      | inr _ => []
      end
  | (_, inr _) => []
  end.

(** The snippets of a sequence of calls, each rendered in the state that
    the calls before it have left. *)
Fixpoint snippets (calls : list (string * Data)) (g : Generator)
  : list (list ast.Decl) :=
  match calls with
  | [] => []
  | (s, data) :: rest =>
      snippet s data g :: snippets rest (DeclareFromTemplate s data g).1
  end.

(** The importer after a sequence of operations. *)
Definition applyOp (i : I) (op : ImportOp) : I :=
  match op with
  | Requested p => (Import p i).2
  | Merged spec => addImportSpec spec i
  end.
Definition applyOps (ops : list ImportOp) (i : I) : I := foldl applyOp i ops.

End Generator.

Arguments Generator I : clear implicits.
Arguments NewGenerator {I IM}.

(** *** The text of an error *)

(** [Error()] of a [scanner.Error]: the position, then the message. *)
Definition scanner_Error_text (e : scanner_Error) : string :=
  Filename (Pos e) +:+ ":" +:+ pretty (Line (Pos e)) +:+ ":"
    +:+ pretty (Column (Pos e)) +:+ ": " +:+ Msg e.

(** [Error()] of the error that [DeclareFromTemplate] returns. *)
Definition errorText (e : error) : string :=
  match e with
  | template_error msg => msg
  | scanner_ErrorList [] => "no errors"
  | scanner_ErrorList [e] => scanner_Error_text e
  | scanner_ErrorList (e :: rest) =>
      scanner_Error_text e +:+ " (and " +:+ pretty (length rest)
        +:+ " more errors)"
  end.

Fixpoint isInfix (x s : string) : bool :=
  String.prefix x s ||
  match s with
  | "" => false
  | String _ rest => isInfix x rest
  end.

(** The pieces of two consecutive characters of a text. *)
Fixpoint pairsOf (s : string) : list string :=
  match s with
  | String a (String b _ as rest) => String a (String b "") :: pairsOf rest
  | _ => []
  end.

(** Whether a message repeats a piece of [text], be it of two characters
    only: every excerpt of two characters or more starts with such a piece.
    [includesExcerpt] asks it of the text of an error. *)
Definition repeats (msg text : string) : bool :=
  existsb (λ x, isInfix x msg) (pairsOf text).
Definition includesExcerpt (e : error) (text : string) : bool :=
  repeats (errorText e) text.

(** ** The import resolver

    gen/import.go, which declares [importer], [newImporter], [Import],
    [addImportSpec] and [importDecl], is not among the sources at hand.  The
    module below follows section 4.1 of the specification. *)

Module resolver.

(** Modelled from the spec: the [origin] of an [ImportBinding], the type
    declarations of gen/import.go being missing. *)
Inductive Origin := Programmatic | Literal.

(** Modelled from the spec: [ImportBinding], "{path: module locator
    string, alias: identifier string, origin: Programmatic | Literal}"; the
    declaration in gen/import.go is missing. *)
Record ImportBinding := mkBinding
  { path : string; alias : string; origin : Origin }.

#[global] Instance Origin_eq_dec : EqDecision Origin.
Proof. solve_decision. Defined.
#[global] Instance ImportBinding_eq_dec : EqDecision ImportBinding.
Proof. solve_decision. Defined.

(** The state of the resolver is "a mapping path -> ImportBinding". *)
Abbreviation table := (gmap string ImportBinding).

(** Modelled from the spec: "the last path segment" of an import path, the
    text after its last slash; the function of gen/import.go that derives
    the default alias is missing. *)
Fixpoint lastSegment_go (cur s : string) : string :=
  match s with
  | "" => cur
  | String c rest =>
      if decide (c = "/"%char) then lastSegment_go "" rest
      else lastSegment_go (cur +:+ String c "") rest
  end.
(** Modelled from the spec: the default alias of a path, its last segment
    (see [lastSegment_go]). *)
Definition lastSegment (p : string) : string := lastSegment_go "" p.

(** Modelled from the spec: the aliases "already claimed" in a table, the
    namespace of gen/import.go being missing. *)
Definition aliases (t : table) : gset string := map_img (alias <$> t).

(** Modelled from the spec: the first of the "increasing numeric" suffixes.
    The specification fixes no starting number, the search of gen/import.go
    is missing, and no general result below depends on the choice. *)
Definition firstSuffix : nat := 2.

(** Modelled from the spec: "append an increasing numeric suffix", the
    search of gen/import.go being missing.  [suffixed taken base n fuel]
    tries [base n], [base (n+1)], ... and stops at the first that is not
    taken; [fuel] bounds the number of candidates that it can skip. *)
Fixpoint suffixed (taken : gset string) (base : string) (n fuel : nat)
  : string :=
  let candidate := base +:+ pretty n in
  match fuel with
  | 0 => candidate
  | S fuel' =>
      if decide (candidate ∈ taken)
      then suffixed taken base (S n) fuel'
      else candidate
  end.

(** Modelled from the spec: the alias derivation of [Request], "default
    alias is the last path segment; if that default is already claimed by
    a different path, a deterministic disambiguation is applied".  At most
    [size taken] candidates can be taken, so that much fuel is enough (see
    [freshAlias_fresh]). *)
Definition freshAlias (t : table) (base : string) : string :=
  if decide (base ∈ aliases t)
  then suffixed (aliases t) base firstSuffix (size (aliases t))
  else base.

(** Modelled from the spec: [Request(path) -> alias] of section 4.1, for
    the missing [importer.Import]. *)
Definition Request (p : string) (t : table) : string * table :=
  match t !! p with
  | Some b => (alias b, t)
  | None =>
      let a := freshAlias t (lastSegment p) in
      (a, <[p := {| path := p; alias := a; origin := Programmatic |}]> t)
  end.

(** Modelled from the spec: [MergeLiteral(path, requestedAlias)] of section
    4.1, for the missing [importer.addImportSpec]: the literal import joins
    the same namespace under the same uniqueness rule, and a path that is
    already bound keeps its one binding. *)
Definition MergeLiteral (p requestedAlias : string) (t : table) : table :=
  match t !! p with
  | Some _ => t
  | None =>
      <[p := {| path := p; alias := freshAlias t requestedAlias;
                origin := Literal |}]> t
  end.

(** Modelled from the spec: the [requestedAlias] of a literal import, its
    local name or, without one, the default alias of its path; the reading
    of an import spec in gen/import.go is missing. *)
Definition requestedAlias (spec : ast.ImportSpec) : string :=
  default (lastSegment (ast.Path spec)) (ast.Name spec).

(** Modelled from the spec: the order of the final block, "deterministic
    sort by path"; the order of the missing [importDecl]. *)
Definition byPath (b1 b2 : ImportBinding) : Prop :=
  String.le (path b1) (path b2).

#[global] Instance byPath_dec : RelDecision byPath.
Proof. intros b1 b2. unfold byPath. apply _. Defined.

(** Modelled from the spec: the import spec of a binding, its "path with its
    resolved alias", as the missing [importDecl] would emit it. *)
Definition specOf (b : ImportBinding) : ast.Spec :=
  ast.ImportSpec_ {| ast.Name := Some (alias b); ast.Path := path b |}.

(** Modelled from the spec: [FinalBlock() -> declaration|empty] of section
    4.1, for the missing [importer.importDecl]: "one import declaration
    covering every distinct registered path with its resolved alias, in a
    stable order (deterministic sort by path)", built here from the
    bindings in any order of iteration. *)
Definition blockOf (bindings : list ImportBinding) : option ast.Decl :=
  match merge_sort byPath bindings with
  | [] => None
  | sorted => Some (ast.GenDecl ast.IMPORT (specOf <$> sorted))
  end.
(** Modelled from the spec: [FinalBlock] on a table, for the missing
    [importer.importDecl] (see [blockOf]). *)
Definition FinalBlock (t : table) : option ast.Decl :=
  blockOf (map_to_list t).*2.

(** Two invariants of a table, in the words of the specification: "no two
    distinct import paths share an alias", and every binding is stored under
    its own path. *)
Definition distinctAliases (t : table) : Prop :=
  ∀ p1 p2 b1 b2,
    t !! p1 = Some b1 → t !! p2 = Some b2 → alias b1 = alias b2 → p1 = p2.
Definition keyedByPath (t : table) : Prop :=
  ∀ p b, t !! p = Some b → path b = p.

(** The paths that a sequence of operations names. *)
Definition pathOf (op : ImportOp) : string :=
  match op with
  | Requested p => p
  | Merged spec => ast.Path spec
  end.

(** Modelled from the spec: the importer of gen/import.go, its four
    operations read as [Request], [MergeLiteral] and [FinalBlock] on a
    table that is empty at first. *)
#[global] Instance spec_importer : Importer table := {|
  newImporter := ∅;
  Import := Request;
  addImportSpec spec := MergeLiteral (ast.Path spec) (requestedAlias spec);
  importDecl := FinalBlock
|}.

(** Modelled from the spec: the importer whose [importDecl] is given the
    bindings of the table in the order [visit], the missing [importDecl]
    ranging over a Go map, whose order of iteration changes from run to run;
    [FinalBlock] is the case of the order of [map_to_list]. *)
Definition visiting (visit : table → list ImportBinding) : Importer table := {|
  newImporter := ∅;
  Import := Request;
  addImportSpec spec := MergeLiteral (ast.Path spec) (requestedAlias spec);
  importDecl t := blockOf (visit t)
|}.

(** An order of visit goes through the bindings of every table, each
    once. *)
Definition enumerates (visit : table → list ImportBinding) : Prop :=
  ∀ t, visit t ≡ₚ (map_to_list t).*2.

(** Two orders of visit: that of [map_to_list] and its reverse. *)
Definition forwards (t : table) : list ImportBinding := (map_to_list t).*2.
Definition backwards (t : table) : list ImportBinding :=
  reverse (map_to_list t).*2.

End resolver.

(** ** A fragment of the Go standard library

    An instance of [GoLib] on which the generator can be run: the parts of
    text/template, go/parser and go/format that the examples of the
    specification and of the documentation of [DeclareFromTemplate] need.
    Texts outside of the fragment are rejected by these definitions, also
    where the real packages accept them, and the parser does not look for
    names that a file declares twice.  The definitions are used below at
    inputs inside the fragment only, and no general result depends on
    them. *)

Module gofrag.

(** The double quote. *)
Definition DQ : ascii := "034"%char.

(** *** text/template: text, field actions and calls of [import] *)

Inductive TmplNode :=
| TextNode (text : string)
| FieldNode (field : string)
| ImportNode (path : string).

(** The data of an execution: a struct with string fields. *)
Definition Struct := list (string * string).

(** One piece of a template: the text between two actions or the source of
    an action, the delimiters removed. *)
Inductive Item := ItemText (s : string) | ItemAction (s : string).

(** Splits a template at its delimiters; [None] when an action is left
    open. *)
Fixpoint splitItems (inAction : bool) (cur s : string) : option (list Item) :=
  match s with
  | "" => if inAction then None else Some [ItemText cur]
  | String c rest =>
      let more := splitItems inAction (cur +:+ String c "") rest in
      match rest with
      | String c' rest' =>
          if inAction then
            if decide (c = "}"%char ∧ c' = "}"%char)
            then cons (ItemAction cur) <$> splitItems false "" rest'
            else more
          else
            if decide (c = "{"%char ∧ c' = "{"%char)
            then cons (ItemText cur) <$> splitItems true "" rest'
            else more
      | "" => more
      end
  end.

Definition isLetter (c : ascii) : bool :=
  let n := nat_of_ascii c in
  bool_decide (65 ≤ n ≤ 90 ∨ 97 ≤ n ≤ 122 ∨ n = 95)%nat.
Definition isDigit (c : ascii) : bool :=
  let n := nat_of_ascii c in bool_decide (48 ≤ n ≤ 57)%nat.

Fixpoint allChars (p : ascii → bool) (s : string) : bool :=
  match s with
  | "" => true
  | String c rest => p c && allChars p rest
  end.

Definition isIdentifier (s : string) : bool :=
  match s with
  | "" => false
  | String c rest =>
      isLetter c && allChars (λ c, isLetter c || isDigit c) rest
  end.

(** The value of a string literal without escapes, or [None]. *)
Definition unquote (s : string) : option string :=
  match s with
  | String q rest =>
      match String.rev rest with
      | String q' body =>
          if decide (q = DQ ∧ q' = DQ ∧ allChars (λ c, negb (bool_decide (c = DQ))) body)
          then Some (String.rev body) else None
      | "" => None
      end
  | "" => None
  end.

(** The action between two delimiters. *)
Definition parseAction (funcs : list string) (src : string)
  : TmplNode + string :=
  match String.words src with
  | [String "." field] =>
      if isIdentifier field then inl (FieldNode field)
      else inr ("unexpected " +:+ src +:+ " in command")
  | [f; arg] =>
      if decide (f ∈ funcs) then
        match decide (f = "import"), unquote arg with
        | left _, Some p => inl (ImportNode p)
        | _, _ => inr ("unexpected " +:+ arg +:+ " in operand")
        end
      else inr ("function " +:+ f +:+ " not defined")
  | _ => inr ("unexpected " +:+ src +:+ " in command")
  end.

Fixpoint parseItems (funcs : list string) (items : list Item)
  : list TmplNode + string :=
  match items with
  | [] => inl []
  | ItemText s :: rest =>
      match parseItems funcs rest with
      | inl nodes => inl (TextNode s :: nodes)
      | inr e => inr e
      end
  | ItemAction src :: rest =>
      match parseAction funcs src with
      | inl node =>
          match parseItems funcs rest with
          | inl nodes => inl (node :: nodes)
          | inr e => inr e
          end
      | inr e => inr e
      end
  end.

(** [template.New(name).Funcs(funcs).Parse(s)] on the fragment. *)
Definition Parse (name : string) (funcs : list string) (s : string)
  : list TmplNode + string :=
  match splitItems false "" s with
  | None => inr ("template: " +:+ name +:+ ": unclosed action")
  | Some items =>
      match parseItems funcs items with
      | inl nodes => inl nodes
      | inr e => inr ("template: " +:+ name +:+ ": " +:+ e)
      end
  end.

Fixpoint field (name : string) (data : Struct) : option string :=
  match data with
  | [] => None
  | (n, v) :: rest => if decide (n = name) then Some v else field name rest
  end.

(** [tmpl.Execute(buff, data)] on the fragment: the nodes are executed in
    order, each writing to the buffer; a field that the data lacks stops
    the execution with an error; a call of [import] writes the alias it
    is given. *)
Fixpoint execute (nodes : list TmplNode) (data : Struct) (out : string) : Exec :=
  match nodes with
  | [] => ExecDone out
  | TextNode s :: rest => execute rest data (out +:+ s)
  | FieldNode f :: rest =>
      match field f data with
      | Some v => execute rest data (out +:+ v)
      | None => ExecFail ("template: can't evaluate field " +:+ f)
      end
  | ImportNode p :: rest =>
      ExecImport p (λ alias, execute rest data (out +:+ alias))
  end.

Definition Execute (tmpl : list TmplNode) (data : Struct) : Exec :=
  execute tmpl data "".

(** *** go/scanner: identifiers, keywords, string literals, parentheses,
    with the rule that a line end after an identifier, a string or a
    closing parenthesis is a semicolon *)

Inductive Tok :=
| EOF
| IDENT (lit : string)
| STRING (value : string)
| KEYWORD (kw : string)
| LPAREN
| RPAREN
| PERIOD
| SEMICOLON (lit : string)
| OTHER (c : ascii).

(** Where a token starts: offset, line and column. *)
Record Loc := mkLoc { loc_offset : nat; loc_line : nat; loc_column : nat }.

Definition advance (l : Loc) (c : ascii) : Loc :=
  if decide (String c "" = LF)
  then mkLoc (S (loc_offset l)) (S (loc_line l)) 1
  else mkLoc (S (loc_offset l)) (loc_line l) (S (loc_column l)).

Inductive Mode :=
| Idle
| InIdent (acc : string) (start : Loc)
| InString (acc : string) (start : Loc).

(** The scanner: the tokens so far (last first), the place of the next
    character, whether a line end is a semicolon here, what it is in the
    middle of, and its first error. *)
Record Scanner := mkScanner {
  toks : list (Tok * Loc);
  here : Loc;
  insertSemi : bool;
  mode : Mode;
  scanErr : option (Loc * string)
}.

Definition keywords : list string :=
  ["break"; "case"; "chan"; "const"; "continue"; "default"; "defer";
   "else"; "fallthrough"; "for"; "func"; "go"; "goto"; "if"; "import";
   "interface"; "map"; "package"; "range"; "return"; "select"; "struct";
   "switch"; "type"; "var"].

Definition emit (t : Tok) (l : Loc) (semi : bool) (s : Scanner) : Scanner :=
  mkScanner ((t, l) :: toks s) (here s) semi Idle (scanErr s).

Definition fail (l : Loc) (msg : string) (s : Scanner) : Scanner :=
  mkScanner (toks s) (here s) (insertSemi s) Idle
    (match scanErr s with Some e => Some e | None => Some (l, msg) end).

Definition closeIdent (acc : string) (start : Loc) (s : Scanner) : Scanner :=
  if decide (acc ∈ keywords)
  then emit (KEYWORD acc) start
         (bool_decide (acc ∈ ["break"; "continue"; "fallthrough"; "return"])) s
  else emit (IDENT acc) start true s.

Definition move (c : ascii) (m : Mode) (s : Scanner) : Scanner :=
  mkScanner (toks s) (advance (here s) c) (insertSemi s) m (scanErr s).

Definition idleStep (s : Scanner) (c : ascii) : Scanner :=
  let l := here s in
  if decide (String c "" = LF) then
    move c Idle (if insertSemi s then emit (SEMICOLON LF) l false s else s)
  else if Ascii.is_space c then move c Idle s
  else if decide (c = "("%char) then move c Idle (emit LPAREN l false s)
  else if decide (c = ")"%char) then move c Idle (emit RPAREN l true s)
  else if decide (c = ";"%char) then move c Idle (emit (SEMICOLON ";") l false s)
  else if decide (c = "."%char) then move c Idle (emit PERIOD l false s)
  else if decide (c = DQ) then move c (InString "" l) s
  else if isLetter c then move c (InIdent (String c "") l) s
  else move c Idle (emit (OTHER c) l false s).

Definition scanStep (s : Scanner) (c : ascii) : Scanner :=
  match mode s with
  | Idle => idleStep s c
  | InIdent acc start =>
      if isLetter c || isDigit c
      then move c (InIdent (acc +:+ String c "") start) s
      else idleStep (closeIdent acc start s) c
  | InString acc start =>
      if decide (c = DQ) then move c Idle (emit (STRING acc) start true s)
      else if decide (String c "" = LF)
      then move c Idle (fail start "string literal not terminated" s)
      else move c (InString (acc +:+ String c "") start) s
  end.

Fixpoint scanAll (s : Scanner) (src : string) : Scanner :=
  match src with
  | "" => s
  | String c rest => scanAll (scanStep s c) rest
  end.

Definition scanEnd (s : Scanner) : Scanner :=
  let s1 :=
    match mode s with
    | Idle => s
    | InIdent acc start => closeIdent acc start s
    | InString _ start => fail start "string literal not terminated" s
    end in
  let s2 := if insertSemi s1 then emit (SEMICOLON LF) (here s1) false s1 else s1 in
  emit EOF (here s2) false s2.

Definition scan (src : string) : list (Tok * Loc) + (Loc * string) :=
  let s := scanEnd (scanAll (mkScanner [] (mkLoc 0 1 1) false Idle None) src) in
  match scanErr s with
  | Some e => inr e
  | None => inl (rev (toks s))
  end.

(** *** go/parser: the package clause, import declarations and the
    declarations [type T U] and [var x T] *)

Definition positionOf (filename : string) (l : Loc) : Position :=
  mkPosition filename (loc_offset l) (loc_line l) (loc_column l).

(** How the parser names the token it found (Go 1.5 wording). *)
Definition found (t : Tok) : string :=
  match t with
  | EOF => "'EOF'"
  | IDENT lit => "'IDENT' " +:+ lit
  | STRING v => "'STRING' " +:+ String DQ v +:+ String DQ ""
  | KEYWORD kw => "'" +:+ kw +:+ "'"
  | LPAREN => "'('"
  | RPAREN => "')'"
  | PERIOD => "'.'"
  | SEMICOLON lit => if decide (lit = LF) then "newline" else "';'"
  | OTHER c => "'" +:+ String c "'"
  end.

Definition errorExpected {A} (filename what : string) (t : Tok * Loc)
  : A + scanner_Error :=
  inr (mkScannerError (positionOf filename t.2)
         ("expected " +:+ what +:+ ", found " +:+ found t.1)).

(** The statements of a file: its tokens cut after every semicolon outside
    of parentheses; the last statement ends with [EOF]. *)
Fixpoint statements (depth : nat) (cur : list (Tok * Loc))
    (ts : list (Tok * Loc)) : list (list (Tok * Loc)) :=
  match ts with
  | [] => [rev cur]
  | t :: rest =>
      match t.1 with
      | EOF => [rev (t :: cur)]
      | SEMICOLON _ =>
          match depth with
          | 0 => rev (t :: cur) :: statements 0 [] rest
          | _ => statements depth (t :: cur) rest
          end
      | LPAREN => statements (S depth) (t :: cur) rest
      | RPAREN => statements (pred depth) (t :: cur) rest
      | _ => statements depth (t :: cur) rest
      end
  end.

Definition endOfInput : Tok * Loc := (EOF, mkLoc 0 1 1).

Definition parsePackage (fn : string) (stmt : list (Tok * Loc))
  : string + scanner_Error :=
  match stmt with
  | (KEYWORD "package", _) :: rest =>
      match rest with
      | (IDENT name, _) :: rest' =>
          match rest' with
          | [(SEMICOLON _, _)] => inl name
          | t :: _ => errorExpected fn "';'" t
          | [] => errorExpected fn "';'" endOfInput
          end
      | t :: _ => errorExpected fn "'IDENT'" t
      | [] => errorExpected fn "'IDENT'" endOfInput
      end
  | t :: _ => errorExpected fn "'package'" t
  | [] => errorExpected fn "'package'" endOfInput
  end.

(** The specs of a parenthesized import declaration, up to its end. *)
Fixpoint parseImportGroup (fn : string) (ts : list (Tok * Loc))
  : list ast.Spec + scanner_Error :=
  let spec name p rest :=
    match rest with
    | inl specs => inl (ast.ImportSpec_ (ast.mkImportSpec name p) :: specs)
    | inr e => inr e
    end in
  match ts with
  | [(RPAREN, _); (SEMICOLON _, _)] => inl []
  | (STRING p, _) :: (SEMICOLON _, _) :: rest =>
      spec None p (parseImportGroup fn rest)
  | (IDENT a, _) :: (STRING p, _) :: (SEMICOLON _, _) :: rest =>
      spec (Some a) p (parseImportGroup fn rest)
  | (PERIOD, _) :: (STRING p, _) :: (SEMICOLON _, _) :: rest =>
      spec (Some ".") p (parseImportGroup fn rest)
  | (STRING _, _) :: t :: _ => errorExpected fn "';'" t
  | (IDENT _, _) :: (STRING _, _) :: t :: _ => errorExpected fn "';'" t
  | (PERIOD, _) :: (STRING _, _) :: t :: _ => errorExpected fn "';'" t
  | (IDENT _, _) :: t :: _ => errorExpected fn "'STRING'" t
  | (PERIOD, _) :: t :: _ => errorExpected fn "'STRING'" t
  | (RPAREN, _) :: t :: _ => errorExpected fn "';'" t
  | t :: _ => errorExpected fn "'STRING'" t
  | [] => errorExpected fn "')'" endOfInput
  end.

(** An import declaration, after its keyword. *)
Definition parseImport (fn : string) (ts : list (Tok * Loc))
  : ast.Decl + scanner_Error :=
  let one name p := inl (ast.GenDecl ast.IMPORT
                           [ast.ImportSpec_ (ast.mkImportSpec name p)]) in
  match ts with
  | (LPAREN, _) :: rest =>
      match parseImportGroup fn rest with
      | inl specs => inl (ast.GenDecl ast.IMPORT specs)
      | inr e => inr e
      end
  | [(STRING p, _); (SEMICOLON _, _)] => one None p
  | [(IDENT a, _); (STRING p, _); (SEMICOLON _, _)] => one (Some a) p
  | [(PERIOD, _); (STRING p, _); (SEMICOLON _, _)] => one (Some ".") p
  | (STRING _, _) :: t :: _ => errorExpected fn "';'" t
  | (IDENT _, _) :: (STRING _, _) :: t :: _ => errorExpected fn "';'" t
  | (PERIOD, _) :: (STRING _, _) :: t :: _ => errorExpected fn "';'" t
  | (IDENT _, _) :: t :: _ => errorExpected fn "'STRING'" t
  | (PERIOD, _) :: t :: _ => errorExpected fn "'STRING'" t
  | t :: _ => errorExpected fn "'STRING'" t
  | [] => errorExpected fn "'STRING'" endOfInput
  end.

(** A type or variable declaration, after its keyword. *)
Definition parseGen (fn : string) (tk : ast.Token)
    (spec : string → string → ast.Spec) (ts : list (Tok * Loc))
  : ast.Decl + scanner_Error :=
  match ts with
  | [(IDENT name, _); (IDENT type, _); (SEMICOLON _, _)] =>
      inl (ast.GenDecl tk [spec name type])
  | (IDENT _, _) :: (IDENT _, _) :: t :: _ => errorExpected fn "';'" t
  | (IDENT _, _) :: t :: _ => errorExpected fn "type" t
  | t :: _ => errorExpected fn "'IDENT'" t
  | [] => errorExpected fn "'IDENT'" endOfInput
  end.

(** The declarations of a file, statement by statement; import
    declarations come before all others. *)
Fixpoint parseDecls (fn : string) (imports : bool)
    (stmts : list (list (Tok * Loc))) : list ast.Decl + scanner_Error :=
  let decl d rest :=
    match d, rest with
    | inl d, inl ds => inl (d :: ds)
    | inr e, _ => inr e
    | _, inr e => inr e
    end in
  match stmts with
  | [] => inl []
  | stmt :: rest =>
      match stmt with
      | [] => inl []
      | (EOF, _) :: _ => inl []
      | (KEYWORD "import", l) :: ts =>
          if imports
          then decl (parseImport fn ts) (parseDecls fn true rest)
          else errorExpected fn "declaration" (KEYWORD "import", l)
      | (KEYWORD "type", _) :: ts =>
          decl (parseGen fn ast.TYPE ast.TypeSpec ts)
               (parseDecls fn false rest)
      | (KEYWORD "var", _) :: ts =>
          decl (parseGen fn ast.VAR ast.ValueSpec ts)
               (parseDecls fn false rest)
      | t :: _ => errorExpected fn "declaration" t
      end
  end.

(** [parser.ParseFile(token.NewFileSet(), filename, src, 0)] on the
    fragment; the parser stops at its first error. *)
Definition ParseFile (filename src : string)
  : ast.File + list scanner_Error :=
  match scan src with
  | inr (l, msg) => inr [mkScannerError (positionOf filename l) msg]
  | inl ts =>
      match statements 0 [] ts with
      | [] => inr []
      | pkg :: rest =>
          match parsePackage filename pkg with
          | inr e => inr [e]
          | inl name =>
              match parseDecls filename true rest with
              | inr e => inr [e]
              | inl ds => inl (ast.mkFile name ds)
              end
          end
      end
  end.

(** *** go/format: one declaration per line, after the package clause *)

Definition keywordOf (tk : ast.Token) : string :=
  match tk with
  | ast.IMPORT => "import"
  | ast.CONST => "const"
  | ast.TYPE => "type"
  | ast.VAR => "var"
  end.

Definition printSpec (s : ast.Spec) : string :=
  match s with
  | ast.ImportSpec_ (ast.mkImportSpec None p) => String DQ p +:+ String DQ ""
  | ast.ImportSpec_ (ast.mkImportSpec (Some a) p) =>
      a +:+ " " +:+ String DQ p +:+ String DQ ""
  | ast.ValueSpec name type => name +:+ " " +:+ type
  | ast.TypeSpec name type => name +:+ " " +:+ type
  end.

Definition TAB : string := String "009"%char "".

Fixpoint printSpecs (specs : list ast.Spec) : string :=
  match specs with
  | [] => ""
  | s :: rest => TAB +:+ printSpec s +:+ LF +:+ printSpecs rest
  end.

Definition printDecl (d : ast.Decl) : string :=
  match d with
  | ast.GenDecl tk [s] => keywordOf tk +:+ " " +:+ printSpec s
  | ast.GenDecl tk specs =>
      keywordOf tk +:+ " (" +:+ LF +:+ printSpecs specs +:+ ")"
  | ast.FuncDecl _ text => text
  | ast.BadDecl => "BadDecl"
  end.

Fixpoint printDecls (ds : list ast.Decl) : string :=
  match ds with
  | [] => ""
  | d :: rest => LF +:+ printDecl d +:+ LF +:+ printDecls rest
  end.

(** [format.Node(w, fs, file)] on the fragment; the layout is that of
    gofmt up to blank lines. *)
Definition Node (fs : unit) (file : ast.File) : string + string :=
  inl ("package " +:+ ast.FileName file +:+ LF +:+ printDecls (ast.Decls file)).

#[global] Instance go : GoLib := {|
  Template := list TmplNode;
  Data := Struct;
  template_Parse := Parse;
  template_Execute := Execute;
  parser_ParseFile := ParseFile;
  FileSet := unit;
  format_Node := Node
|}.

End gofrag.

(** ** The inputs of the examples

    The generator of the examples has the resolver for its importer and runs
    on the library fragment. *)

Definition quoted (s : string) : string :=
  String gofrag.DQ s +:+ String gofrag.DQ "".

Definition fresh : Generator resolver.table := NewGenerator.

(** The example of the documentation of [DeclareFromTemplate]. *)
Definition typeTemplate : string := "type {{.Name}} int32".
Definition myTypeData : gofrag.Struct := [("Name", "myType")].

(** A second declaration, for sequences of calls. *)
Definition varTemplate : string := "var {{.Name}} {{.Type}}".
Definition counterData : gofrag.Struct := [("Name", "counter"); ("Type", "int64")].

(** A template that requests an import and then reads a field that the data
    lacks. *)
Definition importThenMissingField : string :=
  "{{import " +:+ quoted "fmt" +:+ "}}{{.Missing}}".

(** A template that requests an import and renders the alias alone, which is
    no declaration. *)
Definition importAlone : string := "{{import " +:+ quoted "fmt" +:+ "}}".

(** A template without actions whose text is an unfinished declaration. *)
Definition unfinishedVar : string := "var".

(** The generator after the two example declarations. *)
Definition twoDecls : Generator resolver.table :=
  {| importer := ∅;
     decls := [ast.GenDecl ast.TYPE [ast.TypeSpec "myType" "int32"];
               ast.GenDecl ast.VAR [ast.ValueSpec "counter" "int64"]] |}.

(** The generator after the request of [fmt]. *)
Definition withFmt : Generator resolver.table :=
  {| importer := <["fmt" := resolver.mkBinding "fmt" "fmt" resolver.Programmatic]> ∅;
     decls := [] |}.

(** ** More vocabulary for generator.go *)

Section GeneratorVocabulary.
Context {I : Type} {IM : Importer I} {lib : GoLib}.

(** The paths on which an execution calls [import], in the order of the
    calls, when it runs against the importer [i]. *)
Fixpoint requestsOf (x : Exec) (i : I) : list string :=
  match x with
  | ExecDone _ => []
  | ExecFail _ => []
  | ExecImport path k =>
      let '(alias, i') := Import path i in path :: requestsOf (k alias) i'
  end.

(** The paths that the template of a call requests in state [g]. *)
Definition requested (s : string) (data : Data) (g : Generator I)
  : list string :=
  match template_Parse "thriftrw" templateFuncs s with
  | inl tmpl => requestsOf (template_Execute tmpl data) (importer g)
  | inr _ => []
  end.

(** The import specs among a list of specs. *)
Definition importSpecsIn (specs : list ast.Spec) : list ast.ImportSpec :=
  specs ≫= λ sp,
    match sp with
    | ast.ImportSpec_ imp => [imp]
    | _ => []
    end.

(** The import specs of the import declarations of a file, in its order. *)
Definition importSpecsOf (ds : list ast.Decl) : list ast.ImportSpec :=
  ds ≫= λ d,
    match d with
    | ast.GenDecl ast.IMPORT specs => importSpecsIn specs
    | _ => []
    end.

(** Whether the type assertion of the inner loop holds for every spec of a
    declaration: an import declaration has import specs only. *)
Definition importsOnly (d : ast.Decl) : bool :=
  match d with
  | ast.GenDecl ast.IMPORT specs =>
      forallb (λ sp, match sp with ast.ImportSpec_ _ => true | _ => false end)
        specs
  | _ => true
  end.

(** The declarations of a file up to the first on which the inner loop
    panics. *)
Fixpoint untilOffending (ds : list ast.Decl) : list ast.Decl :=
  match ds with
  | [] => []
  | d :: rest => if importsOnly d then d :: untilOffending rest else []
  end.

(** The declarations that a call in state [g] appends: those of its
    snippet that are no imports, up to the declaration on which it
    panics. *)
Definition appended (s : string) (data : Data) (g : Generator I)
  : list ast.Decl :=
  match renderTemplate s data g with
  | (_, inl bs) =>
      match parser_ParseFile "thriftrw.go" bs with
      | inl f =>
          filter (λ d, isImportDecl d = false) (untilOffending (ast.Decls f))
      | inr _ => []
      end
  | (_, inr _) => []
  end.

(** The generators that a program gets from [NewGenerator] by calls of
    [DeclareFromTemplate] and [Write], whatever they return. *)
Inductive reached : Generator I → Prop :=
| reached_new : reached NewGenerator
| reached_declare s data g :
    reached g → reached (DeclareFromTemplate s data g).1
| reached_write fs g : reached g → reached (Write fs g).1.

End GeneratorVocabulary.

(** ** frame/server.go

    [Server] reads framed requests from a [Reader], hands each to a
    [Handler] and writes the response to a [Writer].  [Reader] and [Writer]
    are declared in files of package frame that are not at hand, and the
    handler is the caller's.  A reader is represented here by the results
    that its successive [Read] calls return (a [Serve] that reads past them
    waits forever), a writer by the frames handed to its [Write], and both by
    the number of times they were closed.

    The model is that of one goroutine.  What the code of others can do to a
    server through this file is to call [Stop]: each call into a reader, a
    handler or a writer says whether [Stop] was called while it ran. *)

Module frame.

(** The errors that [Serve] returns: its own, or one handed on from the
    reader, the handler or the writer. *)
Inductive error (E : Type) :=
| alreadyRunning
| handedOn (e : E).
Arguments alreadyRunning {E}.
Arguments handedOn {E} e.

(** What one call of [Read] does: whether [Stop] is called in the
    meantime, and the frame or the error that it returns. *)
Record ReadResult (E : Type) := mkRead
  { readStops : bool; readValue : string + E }.
Arguments mkRead {E}.
Arguments readStops {E}.
Arguments readValue {E}.

Record Reader := mkReader { reads : nat; readerCloses : nat }.
Record Writer := mkWriter { frames : list string; writerCloses : nat }.

(** [type Server struct]; [running] is the value of the [*atomic.Bool]. *)
Record Server := mkServer {
  r : Reader;
  w : Writer;
  running : bool;
  shouldCloseReader : bool;
  shouldCloseWriter : bool
}.

(** [NewServer], given the reader and the writer it builds. *)
Definition NewServer (rd : Reader) (wr : Writer) : Server :=
  {| r := rd; w := wr; running := false;
     shouldCloseReader := false; shouldCloseWriter := false |}.

(** [closeReaderWriter] *)
Definition closeReaderWriter (s : Server) : Server :=
  {| r := mkReader (reads (r s)) (S (readerCloses (r s)));
     w := mkWriter (frames (w s)) (S (writerCloses (w s)));
     running := running s;
     shouldCloseReader := shouldCloseReader s;
     shouldCloseWriter := shouldCloseWriter s |}.

(** [closeReader] *)
Definition closeReader (s : Server) : Server :=
  let s1 := {| r := r s; w := w s; running := running s;
               shouldCloseReader := true;
               shouldCloseWriter := shouldCloseWriter s |} in
  if shouldCloseWriter s1 then closeReaderWriter s1 else s1.

(** [Stop]: [running.Swap(false)] returns the old value; the result is
    nil. *)
Definition Stop {E} (s : Server) : Server * option (error E) :=
  let s1 := {| r := r s; w := w s; running := false;
               shouldCloseReader := shouldCloseReader s;
               shouldCloseWriter := shouldCloseWriter s |} in
  if running s then (closeReader s1, None) else (s1, None).

(** What a call of [Serve] comes to: it returns, or it waits in [Read]. *)
Inductive Outcome (E H : Type) :=
| Returns (err : option (error E)) (s : Server) (hs : H)
| Blocks (s : Server) (hs : H).
Arguments Returns {E H}.
Arguments Blocks {E H}.

Section Serve.
Context {E H : Type}.

(** [Handler.Handle] for a handler in state [hs]: whether it stops the
    server, and its response or error. *)
Variable Handle : string → H → H * bool * (string + E).

(** [Writer.Write] on a writer that was handed [frames] before: whether
    [Stop] is called in the meantime, and its error. *)
Variable writeResult : list string → string → bool * option E.

(** A call of [Stop] while a reader, a handler or a writer runs. *)
Definition stopIf (b : bool) (s : Server) : Server :=
  if b then (Stop (E := E) s).1 else s.

Definition afterRead (s : Server) : Server :=
  {| r := mkReader (S (reads (r s))) (readerCloses (r s));
     w := w s; running := running s;
     shouldCloseReader := shouldCloseReader s;
     shouldCloseWriter := shouldCloseWriter s |}.

Definition afterWrite (res : string) (s : Server) : Server :=
  {| r := r s;
     w := mkWriter (frames (w s) ++ [res]) (writerCloses (w s));
     running := running s;
     shouldCloseReader := shouldCloseReader s;
     shouldCloseWriter := shouldCloseWriter s |}.

(** The loop of [Serve], [for s.running.Load()], on the results of the
    calls of [Read] to come. *)
Fixpoint serveLoop (inputs : list (ReadResult E)) (hs : H) (s : Server)
  : Outcome E H :=
  if running s then
    match inputs with
    | [] => Blocks s hs
    | rd :: rest =>
        let s1 := stopIf (readStops rd) (afterRead s) in
        match readValue rd with
        | inr err =>
            if negb (running s1) then Returns None s1 hs
            else Returns (Some (handedOn err)) s1 hs
        | inl req =>
            let '(hs1, stops, res) := Handle req hs in
            let s2 := stopIf stops s1 in
            match res with
            | inr err => Returns (Some (handedOn err)) s2 hs1
            | inl res =>
                let '(stops', werr) := writeResult (frames (w s2)) res in
                let s3 := stopIf stops' (afterWrite res s2) in
                match werr with
                | Some err => Returns (Some (handedOn err)) s3 hs1
                | None => serveLoop rest hs1 s3
                end
            end
        end
    end
  else Returns None s hs.

(** [Serve]: [running.Swap(true)] returns the old value; once it has
    returned false, [closeReaderWriter] is deferred to every return. *)
Definition Serve (inputs : list (ReadResult E)) (hs : H) (s : Server)
  : Outcome E H :=
  if running s then Returns (Some alreadyRunning) s hs
  else
    let s1 := {| r := r s; w := w s; running := true;
                 shouldCloseReader := shouldCloseReader s;
                 shouldCloseWriter := shouldCloseWriter s |} in
    match serveLoop inputs hs s1 with
    | Returns err s2 hs2 => Returns err (closeReaderWriter s2) hs2
    | Blocks s2 hs2 => Blocks s2 hs2
    end.

(** The responses of the handler to the frames of the first results, as
    long as a frame is read and handled without an error. *)
Fixpoint replies (inputs : list (ReadResult E)) (hs : H) : list string :=
  match inputs with
  | [] => []
  | rd :: rest =>
      match readValue rd with
      | inr _ => []
      | inl req =>
          match Handle req hs with
          | (hs1, _, inl res) => res :: replies rest hs1
          | (_, _, inr _) => []
          end
      end
  end.

(** The server an outcome leaves. *)
Definition serverOf (o : Outcome E H) : Server :=
  match o with
  | Returns _ s _ => s
  | Blocks s _ => s
  end.

(** Nobody calls [Stop] while the reader, the handler or the writer
    runs. *)
Definition undisturbed (inputs : list (ReadResult E)) : Prop :=
  Forall (λ rd, readStops rd = false) inputs ∧
  (∀ req hs, (Handle req hs).1.2 = false) ∧
  (∀ before res, (writeResult before res).1 = false).

End Serve.

Arguments stopIf E b s : clear implicits.

(** A step from [s] to [s'] that keeps [shouldCloseWriter] and, while it is
    false, closes neither the reader nor the writer. *)
Definition quiet (s s' : Server) : Prop :=
  shouldCloseWriter s' = shouldCloseWriter s ∧
  (shouldCloseWriter s = false →
   readerCloses (r s') = readerCloses (r s) ∧
   writerCloses (w s') = writerCloses (w s)).

(** A handler that answers every frame with the frame, and a writer that
    takes every frame; the errors are their messages. *)
Definition echo (req : string) (hs : unit) : unit * bool * (string + string) :=
  (hs, false, inl req).
Definition accepting (before : list string) (res : string)
  : bool * option string := (false, None).

(** A handler that stops the server at the frame [quit] and answers
    every frame with the frame. *)
Definition echoUntilQuit (req : string) (hs : unit)
  : unit * bool * (string + string) :=
  (hs, bool_decide (req = "quit"), inl req).

Definition idle : Server := NewServer (mkReader 0 0) (mkWriter [] 0).

(** A reader that returns two frames and then an error, and the server that
    a [Serve] with [echo] leaves on it. *)
Definition twoThenEOF : list (ReadResult string) :=
  [mkRead false (inl "a"); mkRead false (inl "b"); mkRead false (inr "EOF")].
Definition afterEOF : Server :=
  {| r := mkReader 3 1; w := mkWriter ["a"; "b"] 1; running := true;
     shouldCloseReader := false; shouldCloseWriter := false |}.

End frame.

(** ** More inputs of the examples *)

(** A snippet with a literal import before a declaration whose template
    requests another path with the same last segment. *)
Definition mixedImports : string :=
  "import " +:+ quoted "b/util" +:+ LF
    +:+ "var x {{import " +:+ quoted "a/util" +:+ "}}".

(** What the call on [mixedImports] goes through: the generator after the
    request, the rendered text, the parsed file and the generator in the
    end. *)
Definition mixedRendered : Generator resolver.table :=
  {| importer :=
       <["a/util" := resolver.mkBinding "a/util" "util" resolver.Programmatic]> ∅;
     decls := [] |}.
Definition mixedText : string :=
  "package thriftrw" +:+ LF +:+ LF +:+ "import " +:+ quoted "b/util" +:+ LF
    +:+ "var x util".
Definition mixedFile : ast.File :=
  {| ast.FileName := "thriftrw";
     ast.Decls :=
       [ast.GenDecl ast.IMPORT
          [ast.ImportSpec_ (ast.mkImportSpec None "b/util")];
        ast.GenDecl ast.VAR [ast.ValueSpec "x" "util"]] |}.
Definition mixedDeclared : Generator resolver.table :=
  {| importer :=
       <["b/util" := resolver.mkBinding "b/util" "util2" resolver.Literal]>
         (<["a/util" := resolver.mkBinding "a/util" "util"
                          resolver.Programmatic]> ∅);
     decls := [ast.GenDecl ast.VAR [ast.ValueSpec "x" "util"]] |}.

(** ** The declarations of a generator in memory

    [g.decls] is a Go slice: a pointer into a backing array, a length and a
    capacity.  [append] writes into the backing array while the capacity
    allows and moves the elements to a new array otherwise, so that two
    slices may share what one of them writes.  This second embedding of
    generator.go keeps the backing arrays in a heap, to show what [Write]
    and [appendDecl] write and what they leave alone. *)

Module mem.

(** The backing arrays: the cells of each, [None] where nothing was
    stored. *)
Abbreviation Heap := (gmap nat (list (option ast.Decl))).

(** A slice of declarations; the nil slice has capacity 0. *)
Record Slice := mkSlice { array : nat; len : nat; cap : nat }.
Definition nilSlice : Slice := mkSlice 0 0 0.

(** The elements of a slice, [s[0]] to [s[len(s)-1]]. *)
Definition elements (h : Heap) (s : Slice) : list ast.Decl :=
  omap id (take (len s) (default [] (h !! array s))).

(** [make([]ast.Decl, 0, n)] *)
Definition make (n : nat) (h : Heap) : Heap * Slice :=
  let a := base.fresh (dom h) in (<[a := replicate n None]> h, mkSlice a 0 n).

Section Memory.
Context {I : Type} {IM : Importer I} {lib : GoLib}.

(** The capacity that the runtime picks when [append] has to move a slice
    of the capacity [c] to hold [n] elements; it is [n] at least. *)
Variable grow : nat → nat → nat.

(** [append(s, xs...)] *)
Definition append (h : Heap) (s : Slice) (xs : list ast.Decl)
  : Heap * Slice :=
  let n := len s + length xs in
  if decide (n ≤ cap s) then
    (alter (λ cells, take (len s) cells ++ (Some <$> xs) ++ drop n cells)
       (array s) h,
     mkSlice (array s) n (cap s))
  else
    let a := base.fresh (dom h) in
    let c := n `max` grow (cap s) n in
    (<[a := (Some <$> elements h s) ++ (Some <$> xs)
              ++ replicate (c - n) None]> h,
     mkSlice a n c).

(** [type Generator struct { importer; decls []ast.Decl }] *)
Record Generator := mkGenerator { importer : I; decls : Slice }.

(** The memory and the generator in it. *)
Abbreviation State := (Heap * Generator)%type.

(** [NewGenerator]: the zero value of [decls] is the nil slice. *)
Definition NewGenerator : State :=
  (∅, {| importer := newImporter; decls := nilSlice |}).

(** [renderTemplate] *)
Definition renderTemplate (s : string) (data : Data) (g : Generator)
  : Generator * (string + error) :=
  match template_Parse "thriftrw" templateFuncs s with
  | inr err => (g, inr (template_error err))
  | inl tmpl =>
      let buff := "package thriftrw" +:+ LF +:+ LF in
      let '(i', r) := runExec (template_Execute tmpl data) (importer g) in
      let g' := {| importer := i'; decls := decls g |} in
      match r with
      | inr err => (g', inr (template_error err))
      | inl out => (g', inl (buff +:+ out))
      end
  end.

(** [appendDecl]: [g.decls = append(g.decls, decl)] *)
Definition appendDecl (decl : ast.Decl) (st : State) : State :=
  let '(h', s') := append st.1 (decls st.2) [decl] in
  (h', {| importer := importer st.2; decls := s' |}).

(** The inner loop of [DeclareFromTemplate]. *)
Fixpoint addImportSpecs (imports : list ast.Spec) (g : Generator)
  : Generator * ret :=
  match imports with
  | [] => (g, Nil)
  | ast.ImportSpec_ imp :: rest =>
      addImportSpecs rest
        {| importer := addImportSpec imp (importer g); decls := decls g |}
  | _ :: _ => (g, Panic)
  end.

(** The outer loop of [DeclareFromTemplate]. *)
Fixpoint declareDecls (ds : list ast.Decl) (st : State) : State * ret :=
  match ds with
  | [] => (st, Nil)
  | decl :: rest =>
      match decl with
      | ast.GenDecl ast.IMPORT imports =>
          match addImportSpecs imports st.2 with
          | (g', Nil) => declareDecls rest (st.1, g')
          | (g', stopped) => ((st.1, g'), stopped)
          end
      | _ => declareDecls rest (appendDecl decl st)
      end
  end.

(** [DeclareFromTemplate] *)
Definition DeclareFromTemplate (s : string) (data : Data) (st : State)
  : State * ret :=
  match renderTemplate s data st.2 with
  | (g1, inr err) => ((st.1, g1), Error err)
  | (g1, inl bs) =>
      match parser_ParseFile "thriftrw.go" bs with
      | inr errs => ((st.1, g1), Error (scanner_ErrorList errs))
      | inl f => declareDecls (ast.Decls f) (st.1, g1)
      end
  end.

(** [Write]: the slice [decls] of the file is made anew, with room for the
    import declaration and the declarations of the generator, which are
    copied into it. *)
Definition Write (fs : FileSet) (st : State) : State * (string + string) :=
  let '(h1, decls0) := make (1 + len (decls st.2)) st.1 in
  let '(h2, decls1) :=
    match importDecl (importer st.2) with
    | Some d => append h1 decls0 [d]
    | None => (h1, decls0)
    end in
  let '(h3, decls2) := append h2 decls1 (elements h2 (decls st.2)) in
  let file := {| ast.FileName := "todo"; ast.Decls := elements h3 decls2 |} in
  ((h3, st.2), format_Node fs file).

End Memory.

Arguments Generator I : clear implicits.

(** A slice is in order in a heap when its backing array has as many cells
    as its capacity and the cells below its length hold declarations. *)
Definition wfSlice (h : Heap) (s : Slice) : Prop :=
  ∃ ds rest,
    length ds = len s ∧ length ds + length rest = cap s ∧
    (cap s = 0 ∨ h !! array s = Some ((Some <$> ds) ++ rest)).

End mem.

(** The generator of the first embedding that a state of the memory stands
    for, and the states that are in order. *)
Definition declarations {I : Type} (st : mem.Heap * mem.Generator I)
  : list ast.Decl :=
  mem.elements st.1 (mem.decls st.2).
Definition abs {I : Type} (st : mem.Heap * mem.Generator I) : Generator I :=
  {| importer := mem.importer st.2; decls := declarations st |}.
Definition wf {I : Type} (st : mem.Heap * mem.Generator I) : Prop :=
  mem.wfSlice st.1 (mem.decls st.2).

(** The growth of the examples: twice the capacity. *)
Definition doubling (c n : nat) : nat := 2 * c.


(** Three calls in memory: the two example declarations and the snippet
    with the imports. *)
Definition threeInMemory : mem.Heap * mem.Generator resolver.table :=
  (mem.DeclareFromTemplate (lib := gofrag.go) doubling mixedImports
     ([] : gofrag.Struct)
     (mem.DeclareFromTemplate (lib := gofrag.go) doubling varTemplate
        counterData
        (mem.DeclareFromTemplate (lib := gofrag.go) doubling typeTemplate
           myTypeData mem.NewGenerator).1).1).1.

(** The data of a fourth call. *)
Definition otherData : gofrag.Struct := [("Name", "other")].

(** * Properties of the generator, for every importer and library *)

Section GeneratorProps.
Context {I : Type} {IM : Importer I} {lib : GoLib}.
Implicit Types (g : Generator I) (s : string) (data : Data).

Lemma renderTemplate_decls s data g :
  decls (renderTemplate s data g).1 = decls g.
Proof.
  unfold renderTemplate.
  destruct (template_Parse _ _ s) as [tmpl|msg]; [|done].
  destruct (runExec _ _) as [i' [out|msg]]; done.
Qed.

(** What [renderTemplate] does to the importer: nothing when the template
    does not parse, else what the calls of [import] do. *)
Lemma renderTemplate_importer s data g :
  importer (renderTemplate s data g).1 =
    match template_Parse "thriftrw" templateFuncs s with
    | inl tmpl => (runExec (template_Execute tmpl data) (importer g)).1
    | inr _ => importer g
    end.
Proof.
  unfold renderTemplate.
  destruct (template_Parse _ _ s) as [tmpl|msg]; [|done].
  destruct (runExec _ _) as [i' [out|msg]]; done.
Qed.

Lemma addImportSpecs_decls imports g :
  decls (addImportSpecs imports g).1 = decls g.
Proof.
  revert g. induction imports as [|[imp|n t|n t] rest IH]; intros g; simpl;
    [done| |done..].
  by rewrite IH.
Qed.

Lemma addImportSpecs_ret imports g e :
  (addImportSpecs imports g).2 ≠ Error e.
Proof.
  revert g. induction imports as [|[imp|n t|n t] rest IH]; intros g; simpl;
    [done| |done..].
  apply IH.
Qed.

(** The loop over the declarations never returns an error, and when it
    returns it has appended the declarations that are no imports. *)
Lemma declareDecls_ret ds g e : (declareDecls ds g).2 ≠ Error e.
Proof.
  revert g. induction ds as [|d rest IH]; intros g; simpl; [done|].
  destruct d as [[] specs|n t|]; try apply IH.
  pose proof (addImportSpecs_ret specs g e) as Hne.
  destruct (addImportSpecs specs g) as [g' [|e'|]]; simpl in *;
    [apply IH|done..].
Qed.

Lemma declareDecls_Nil ds g g' :
  declareDecls ds g = (g', Nil) →
  decls g' = decls g ++ filter (λ d, isImportDecl d = false) ds.
Proof.
  revert g. induction ds as [|d rest IH]; intros g; simpl.
  { intros [= <-]. by rewrite app_nil_r. }
  destruct d as [tk specs|n t|].
  - destruct tk; simpl;
      try (intros Hrest; apply IH in Hrest; rewrite Hrest; simpl;
           rewrite filter_cons_True by done; by rewrite <-app_assoc).
    pose proof (addImportSpecs_decls specs g) as Hd.
    destruct (addImportSpecs specs g) as [g1 [|e'|]]; simpl in *; [|done..].
    intros Hrest; apply IH in Hrest. rewrite Hrest, Hd.
    by rewrite filter_cons_False by done.
  - intros Hrest; apply IH in Hrest; rewrite Hrest; simpl.
    rewrite filter_cons_True by done. by rewrite <-app_assoc.
  - intros Hrest; apply IH in Hrest; rewrite Hrest; simpl.
    rewrite filter_cons_True by done. by rewrite <-app_assoc.
Qed.

(** The three ways in which [DeclareFromTemplate] returns an error. *)
Lemma DeclareFromTemplate_Error s data g g' e :
  DeclareFromTemplate s data g = (g', Error e) →
  g' = (renderTemplate s data g).1 ∧
  ((renderTemplate s data g).2 = inr e ∨
   ∃ bs errs, (renderTemplate s data g).2 = inl bs ∧
     parser_ParseFile "thriftrw.go" bs = inr errs ∧
     e = scanner_ErrorList errs).
Proof.
  unfold DeclareFromTemplate.
  destruct (renderTemplate s data g) as [g1 [bs|err]]; simpl.
  - destruct (parser_ParseFile _ bs) as [f|errs] eqn:Hparse.
    + intros Hloop. pose proof (declareDecls_ret (ast.Decls f) g1 e) as Hne.
      by rewrite Hloop in Hne.
    + intros [= <- <-]. eauto 10.
  - intros [= <- <-]. auto.
Qed.

Lemma DeclareFromTemplate_Nil s data g g' :
  DeclareFromTemplate s data g = (g', Nil) →
  decls g' = decls g ++ snippet s data g.
Proof.
  unfold DeclareFromTemplate, snippet.
  pose proof (renderTemplate_decls s data g) as Hd.
  destruct (renderTemplate s data g) as [g1 [bs|err]]; simpl in *; [|done].
  destruct (parser_ParseFile _ bs) as [f|errs]; [|done].
  intros Hloop%declareDecls_Nil. by rewrite Hloop, Hd.
Qed.

Lemma declareAll_Nil calls g g' rs :
  declareAll calls g = (g', rs) → Forall (eq Nil) rs →
  decls g' = decls g ++ concat (snippets calls g).
Proof.
  revert g rs. induction calls as [|[s data] rest IH]; intros g rs; simpl.
  { intros [= <- <-] _. by rewrite app_nil_r. }
  destruct (DeclareFromTemplate s data g) as [g1 r] eqn:Hcall; simpl.
  destruct (declareAll rest g1) as [g2 rs'] eqn:Hrest.
  destruct r; intros [= <- <-] Hall; inv Hall; try done.
  apply DeclareFromTemplate_Nil in Hcall.
  rewrite (IH _ _ Hrest) by done. by rewrite Hcall, <-app_assoc.
Qed.

(** Two entries of a list of lists, in the concatenation. *)
Lemma concat_lookup_lt {A} (ls : list (list A)) i j si sj :
  i < j → ls !! i = Some si → ls !! j = Some sj →
  ∃ l1 l2 l3, concat ls = l1 ++ si ++ l2 ++ sj ++ l3.
Proof.
  intros Hij Hi Hj.
  rewrite <-(take_drop_middle ls j sj Hj).
  assert (take j ls !! i = Some si) as Hi' by by rewrite lookup_take_lt.
  rewrite <-(take_drop_middle _ i si Hi').
  exists (concat (take i (take j ls))),
    (concat (drop (S i) (take j ls))), (concat (drop (S j) ls)).
  rewrite !concat_app, !concat_cons. simpl.
  by rewrite <-!app_assoc.
Qed.

Lemma writeFile_Decls g :
  ast.Decls (writeFile g) = option_list (importDecl (importer g)) ++ decls g.
Proof. unfold writeFile. by destruct (importDecl _). Qed.

(** The importer of a generator is only reached through the operations of
    [ImportOp]. *)
Lemma runExec_ops x i : ∃ ops, (runExec x i).1 = applyOps ops i.
Proof.
  revert i. induction x as [out|msg|p k IH]; intros i; simpl.
  - by exists [].
  - by exists [].
  - destruct (Import p i) as [a i'] eqn:Himp.
    destruct (IH a i') as [ops Hops].
    exists (Requested p :: ops). simpl. by rewrite Himp.
Qed.

Lemma addImportSpecs_ops imports g :
  ∃ ops, importer (addImportSpecs imports g).1 = applyOps ops (importer g).
Proof.
  revert g. induction imports as [|[imp|n t|n t] rest IH]; intros g; simpl;
    try by exists [].
  destruct (IH {| importer := addImportSpec imp (importer g);
                  decls := decls g |}) as [ops Hops].
  by exists (Merged imp :: ops).
Qed.

Lemma applyOps_app ops1 ops2 (i : I) :
  applyOps (ops1 ++ ops2) i = applyOps ops2 (applyOps ops1 i).
Proof. apply foldl_app. Qed.

Lemma declareDecls_ops ds g :
  ∃ ops, importer (declareDecls ds g).1 = applyOps ops (importer g).
Proof.
  revert g. induction ds as [|d rest IH]; intros g; simpl.
  { by exists []. }
  destruct d as [[] specs|n t|]; try apply (IH (appendDecl _ g)).
  destruct (addImportSpecs_ops specs g) as [ops1 Hops1].
  destruct (addImportSpecs specs g) as [g1 [|e|]]; simpl in *; eauto.
  destruct (IH g1) as [ops2 Hops2].
  exists (ops1 ++ ops2). by rewrite applyOps_app, <-Hops1.
Qed.

Lemma DeclareFromTemplate_ops s data g :
  ∃ ops,
    importer (DeclareFromTemplate s data g).1 = applyOps ops (importer g).
Proof.
  unfold DeclareFromTemplate.
  pose proof (renderTemplate_importer s data g) as Hr.
  assert (∃ ops, importer (renderTemplate s data g).1
                 = applyOps ops (importer g)) as [ops1 Hops1].
  { rewrite Hr. destruct (template_Parse _ _ s); [|by exists []].
    apply runExec_ops. }
  destruct (renderTemplate s data g) as [g1 [bs|err]]; simpl in *; eauto.
  destruct (parser_ParseFile _ bs) as [f|errs]; simpl; eauto.
  destruct (declareDecls_ops (ast.Decls f) g1) as [ops2 Hops2].
  exists (ops1 ++ ops2). by rewrite applyOps_app, <-Hops1.
Qed.

Lemma declareAll_ops calls g :
  ∃ ops, importer (declareAll calls g).1 = applyOps ops (importer g).
Proof.
  revert g. induction calls as [|[s data] rest IH]; intros g; simpl.
  { by exists []. }
  destruct (DeclareFromTemplate_ops s data g) as [ops1 Hops1].
  destruct (DeclareFromTemplate s data g) as [g1 r]; simpl in *.
  destruct (IH g1) as [ops2 Hops2].
  destruct (declareAll rest g1) as [g2 rs]; simpl in *.
  destruct r; simpl; eauto;
    exists (ops1 ++ ops2); by rewrite applyOps_app, <-Hops1.
Qed.

End GeneratorProps.

(** * The claims that hold for every importer and library *)

Section GeneratorClaims.
Context {I : Type} {IM : Importer I} {lib : GoLib}.
Implicit Types (g : Generator I) (s : string) (data : Data).

(** C1, amended.  When [DeclareFromTemplate] returns an error, the
    accumulated declarations are the ones from before the call.  The
    importer is the one from before the call when the template text does
    not parse; otherwise it is the importer left by the calls of [import]
    that the template made while it executed: nothing undoes them, whether
    the execution or the parse of the rendered text fails afterwards. *)
Theorem DeclareFromTemplate_error_state s data g g' e :
  DeclareFromTemplate s data g = (g', Error e) →
  decls g' = decls g ∧
  importer g' =
    match template_Parse "thriftrw" templateFuncs s with
    | inl tmpl => (runExec (template_Execute tmpl data) (importer g)).1
    | inr _ => importer g
    end ∧
  (∀ msg, template_Parse "thriftrw" templateFuncs s = inr msg → g' = g).
Proof.
  intros [-> _]%DeclareFromTemplate_Error.
  pose proof (renderTemplate_decls s data g) as Hd.
  pose proof (renderTemplate_importer s data g) as Hi.
  split_and!; [done..|].
  intros msg Hmsg. unfold renderTemplate. by rewrite Hmsg.
Qed.

(** C3.  After a sequence of calls of [DeclareFromTemplate] that all
    returned nil, the declarations of the generator are those of the
    rendered snippets that are no import declarations, call after call and
    within a call in the order of the snippet; the file that [Write]
    formats lists them in that order after the import declaration, so that
    the declarations of an earlier call all come before those of a later
    one. *)
Theorem declarations_in_call_order calls g rs :
  declareAll calls NewGenerator = (g, rs) → Forall (eq Nil) rs →
  decls g = concat (snippets calls NewGenerator) ∧
  ast.Decls (writeFile g) =
    option_list (importDecl (importer g))
      ++ concat (snippets calls NewGenerator) ∧
  ∀ i j si sj, i < j →
    snippets calls NewGenerator !! i = Some si →
    snippets calls NewGenerator !! j = Some sj →
    ∃ l1 l2 l3, ast.Decls (writeFile g) = l1 ++ si ++ l2 ++ sj ++ l3.
Proof.
  intros Hrun Hall.
  pose proof (declareAll_Nil _ _ _ _ Hrun Hall) as Hd. simpl in Hd.
  split_and!; [done|by rewrite writeFile_Decls, Hd|].
  intros i j si sj Hij Hi Hj.
  destruct (concat_lookup_lt _ i j si sj Hij Hi Hj) as (l1 & l2 & l3 & Hc).
  exists (option_list (importDecl (importer g)) ++ l1), l2, l3.
  by rewrite writeFile_Decls, Hd, Hc, <-app_assoc.
Qed.

(** C7, amended.  When the rendered text does not parse,
    [DeclareFromTemplate] returns the error list of the parser as it is:
    positions in thriftrw.go and messages, to which the generator adds
    nothing.  It is never equal to the error of a template that does not
    parse, which is the error value of text/template. *)
Theorem DeclareFromTemplate_parse_error s data g g1 bs errs :
  renderTemplate s data g = (g1, inl bs) →
  parser_ParseFile "thriftrw.go" bs = inr errs →
  DeclareFromTemplate s data g = (g1, Error (scanner_ErrorList errs)) ∧
  ∀ s' data' g' msg,
    template_Parse "thriftrw" templateFuncs s' = inr msg →
    DeclareFromTemplate s' data' g' = (g', Error (template_error msg)) ∧
    template_error msg ≠ scanner_ErrorList errs.
Proof.
  intros Hrender Hparse. unfold DeclareFromTemplate.
  rewrite Hrender, Hparse. split; [done|].
  intros s' data' g' msg Hmsg. unfold renderTemplate. by rewrite Hmsg.
Qed.

(** C10.  Whatever the template and the data, the text that
    [renderTemplate] returns, which is the text [DeclareFromTemplate]
    parses, is the output of the template after the header
    [package thriftrw] and an empty line; and the file that [Write] formats
    has the package name [todo], whatever the generator. *)
Theorem fixed_package_names s data g g1 bs :
  renderTemplate s data g = (g1, inl bs) →
  (∃ tmpl out,
     template_Parse "thriftrw" templateFuncs s = inl tmpl ∧
     (runExec (template_Execute tmpl data) (importer g)).2 = inl out ∧
     bs = "package thriftrw" +:+ LF +:+ LF +:+ out) ∧
  DeclareFromTemplate s data g =
    match parser_ParseFile "thriftrw.go" bs with
    | inr errs => (g1, Error (scanner_ErrorList errs))
    | inl f => declareDecls (ast.Decls f) g1
    end ∧
  ∀ fs g0, ast.FileName (writeFile g0) = "todo" ∧
           Write fs g0 = (g0, format_Node fs (writeFile g0)).
Proof.
  intros Hrender. split_and!.
  - unfold renderTemplate in Hrender.
    destruct (template_Parse _ _ s) as [tmpl|msg]; [|done].
    destruct (runExec _ _) as [i' [out|msg]] eqn:Hrun; [|done].
    injection Hrender as <- <-. exists tmpl, out. by rewrite Hrun.
  - unfold DeclareFromTemplate. by rewrite Hrender.
  - done.
Qed.

End GeneratorClaims.

(** * Properties of the import resolver *)

Section ResolverProps.
Import resolver.
Implicit Types (t : table) (p a base : string) (taken : gset string).
Implicit Types (n k fuel : nat).

Lemma candidate_inj base (k1 k2 : nat) :
  base +:+ pretty k1 = base +:+ pretty k2 → k1 = k2.
Proof. intros Heq%(inj (String.app base)). by apply (inj pretty). Qed.

Lemma suffixed_shape taken base n fuel :
  ∃ k, n ≤ k ∧ suffixed taken base n fuel = base +:+ pretty k.
Proof.
  revert n. induction fuel as [|fuel IH]; intros n; simpl; [by eauto|].
  destruct (decide (_ ∈ taken)); [|by eauto].
  destruct (IH (S n)) as (k & Hk & ->). exists k. split; [lia|done].
Qed.

(** The search only looks at the candidates from [n] on. *)
Lemma suffixed_ext taken1 taken2 base n fuel :
  (∀ k, n ≤ k → base +:+ pretty k ∈ taken1 ↔ base +:+ pretty k ∈ taken2) →
  suffixed taken1 base n fuel = suffixed taken2 base n fuel.
Proof.
  revert n. induction fuel as [|fuel IH]; intros n Hsame; simpl; [done|].
  destruct (decide (_ ∈ taken1)) as [Hin|Hout],
    (decide (_ ∈ taken2)) as [Hin'|Hout']; try done.
  - apply IH. intros k Hk. apply Hsame. lia.
  - by apply Hsame in Hin.
  - by apply Hsame in Hin'.
Qed.

(** With as much fuel as there are taken names, the search ends on a name
    that is not taken: each candidate it skips is one of them, and no
    candidate comes twice. *)
Lemma suffixed_fresh base fuel taken n :
  size taken ≤ fuel → suffixed taken base n fuel ∉ taken.
Proof.
  revert taken n. induction fuel as [|fuel IH]; intros taken n Hsize; simpl.
  { assert (taken = ∅) as ->; [|set_solver].
    apply leibniz_equiv, size_empty_iff. lia. }
  destruct (decide (base +:+ pretty n ∈ taken)) as [Hin|]; [|done].
  set (taken' := taken ∖ {[ base +:+ pretty n ]}).
  assert (suffixed taken base (S n) fuel = suffixed taken' base (S n) fuel)
    as ->.
  { apply suffixed_ext. intros k Hk. unfold taken'.
    rewrite elem_of_difference, not_elem_of_singleton.
    split; [|by intros []]. intros ?. split; [done|].
    intros ?%candidate_inj. lia. }
  assert (size taken' ≤ fuel) as Hsize'.
  { unfold taken'. rewrite size_difference by set_solver.
    rewrite size_singleton. lia. }
  pose proof (IH taken' (S n) Hsize') as Hfresh.
  destruct (suffixed_shape taken' base (S n) fuel) as (k & Hk & Heq).
  rewrite Heq in *. intros Hin'. apply Hfresh. unfold taken'.
  rewrite elem_of_difference, not_elem_of_singleton. split; [done|].
  intros ?%candidate_inj. lia.
Qed.

Lemma freshAlias_fresh t base : freshAlias t base ∉ aliases t.
Proof.
  unfold freshAlias. destruct (decide (base ∈ aliases t)); [|done].
  by apply suffixed_fresh.
Qed.

Lemma elem_of_aliases t a :
  a ∈ aliases t ↔ ∃ p b, t !! p = Some b ∧ alias b = a.
Proof.
  unfold aliases. rewrite elem_of_map_img. setoid_rewrite lookup_fmap.
  split.
  - intros (p & Hp). destruct (t !! p) as [b|] eqn:Hb; simplify_eq/=. eauto.
  - intros (p & b & Hb & <-). exists p. by rewrite Hb.
Qed.

(** A new binding under a fresh alias keeps the aliases distinct. *)
Lemma distinctAliases_insert t p a o :
  distinctAliases t → a ∉ aliases t →
  distinctAliases (<[p := mkBinding p a o]> t).
Proof.
  intros Hinj Hfresh p1 p2 b1 b2.
  rewrite !lookup_insert_Some.
  intros [[<- <-]|[Hne1 Hb1]] [[<- <-]|[Hne2 Hb2]] Heq; simpl in *; try done.
  - destruct Hfresh. apply elem_of_aliases; eauto.
  - destruct Hfresh. apply elem_of_aliases; eauto.
  - eauto.
Qed.

Lemma keyedByPath_insert t p a o :
  keyedByPath t → keyedByPath (<[p := mkBinding p a o]> t).
Proof.
  intros Hkey p' b. rewrite lookup_insert_Some.
  intros [[<- <-]|[_ Hb]]; [done|eauto].
Qed.

Lemma Request_lookup p t :
  ∃ b, (Request p t).2 !! p = Some b ∧ alias b = (Request p t).1.
Proof.
  unfold Request. destruct (t !! p) as [b|] eqn:Hb; simpl; [eauto|].
  eexists. by rewrite lookup_insert_eq.
Qed.

Lemma Request_distinct p t :
  distinctAliases t → distinctAliases (Request p t).2.
Proof.
  intros Hinj. unfold Request. destruct (t !! p); simpl; [done|].
  apply distinctAliases_insert; [done|apply freshAlias_fresh].
Qed.

Lemma MergeLiteral_distinct p a t :
  distinctAliases t → distinctAliases (MergeLiteral p a t).
Proof.
  intros Hinj. unfold MergeLiteral. destruct (t !! p); [done|].
  apply distinctAliases_insert; [done|apply freshAlias_fresh].
Qed.

Lemma Request_keyed p t : keyedByPath t → keyedByPath (Request p t).2.
Proof.
  intros Hkey. unfold Request. destruct (t !! p); simpl; [done|].
  by apply keyedByPath_insert.
Qed.

Lemma MergeLiteral_keyed p a t :
  keyedByPath t → keyedByPath (MergeLiteral p a t).
Proof.
  intros Hkey. unfold MergeLiteral. destruct (t !! p); [done|].
  by apply keyedByPath_insert.
Qed.

(** An operation binds its path and keeps the bindings there are. *)
Lemma applyOp_dom t op : dom (applyOp t op) = {[ pathOf op ]} ∪ dom t.
Proof.
  destruct op as [p|[name p]]; simpl;
    unfold Request, MergeLiteral; simpl;
    destruct (t !! p) eqn:Hp; simpl; rewrite ?dom_insert_L; try done;
    apply elem_of_dom_2 in Hp; set_solver.
Qed.

Lemma applyOps_invariants ops t :
  distinctAliases t → keyedByPath t →
  distinctAliases (applyOps ops t) ∧ keyedByPath (applyOps ops t) ∧
  dom (applyOps ops t) = list_to_set (pathOf <$> ops) ∪ dom t.
Proof.
  revert t. induction ops as [|op ops IH]; intros t Hinj Hkey; simpl.
  { split_and!; [done..|set_solver]. }
  assert (distinctAliases (applyOp t op) ∧ keyedByPath (applyOp t op))
    as [Hinj' Hkey'].
  { destruct op as [p|spec]; simpl;
      auto using Request_distinct, Request_keyed,
        MergeLiteral_distinct, MergeLiteral_keyed. }
  destruct (IH _ Hinj' Hkey') as (? & ? & Hdom).
  split_and!; [done..|]. unfold applyOps in *. simpl.
  rewrite Hdom, applyOp_dom. set_solver.
Qed.

Lemma applyOp_lookup t op p b :
  t !! p = Some b → applyOp t op !! p = Some b.
Proof.
  intros Hb. destruct op as [p'|[name p']]; simpl;
    unfold Request, MergeLiteral; simpl;
    destruct (t !! p') eqn:Hp'; simpl; try done;
    rewrite lookup_insert_ne; [done|congruence|done|congruence].
Qed.

Lemma applyOps_lookup ops t p b :
  t !! p = Some b → applyOps ops t !! p = Some b.
Proof.
  revert t. induction ops as [|op ops IH]; intros t Hb; [done|].
  apply IH. by apply applyOp_lookup.
Qed.

(** *** The final block *)

#[local] Instance byPath_total : Total byPath.
Proof. intros b1 b2. apply (total String.le). Qed.
#[local] Instance byPath_trans : Transitive byPath.
Proof. intros b1 b2 b3. unfold byPath. apply transitivity. Qed.

Lemma blockOf_None (l : list ImportBinding) : blockOf l = None ↔ l = [].
Proof.
  unfold blockOf. pose proof (merge_sort_Permutation byPath l) as Hperm.
  destruct (merge_sort byPath l) as [|b sorted]; split; try done.
  - intros _. by apply Permutation_nil.
  - intros ->. by apply Permutation_nil_r in Hperm.
Qed.

Lemma blockOf_Some (l : list ImportBinding) d :
  blockOf l = Some d →
  ∃ sorted, d = ast.GenDecl ast.IMPORT (specOf <$> sorted) ∧
    sorted ≡ₚ l ∧ Sorted byPath sorted.
Proof.
  unfold blockOf. pose proof (merge_sort_Permutation byPath l) as Hperm.
  pose proof (Sorted_merge_sort byPath l) as Hsorted.
  destruct (merge_sort byPath l) as [|b sorted]; [done|].
  intros [= <-]. by exists (b :: sorted).
Qed.

Lemma FinalBlock_None t : FinalBlock t = None ↔ t = ∅.
Proof.
  unfold FinalBlock. rewrite blockOf_None, <-map_to_list_empty_iff.
  split; [apply fmap_nil_inv|by intros ->].
Qed.

Lemma NoDup_fmap_eq {A B} (f : A → B) (l : list A) x y :
  NoDup (f <$> l) → x ∈ l → y ∈ l → f x = f y → x = y.
Proof.
  induction l as [|z l IH]; simpl; [by intros _ ?%elem_of_nil|].
  rewrite NoDup_cons, !elem_of_cons.
  intros [Hz Hl] [->|Hx] [->|Hy] Heq; auto.
  - destruct Hz. rewrite Heq. by apply list_elem_of_fmap_2.
  - destruct Hz. rewrite <-Heq. by apply list_elem_of_fmap_2.
Qed.

(** The block does not depend on the order in which the bindings of the
    table are visited, no two of them having the same path. *)
Lemma blockOf_Permutation (l1 l2 : list ImportBinding) :
  l1 ≡ₚ l2 → NoDup (path <$> l1) → blockOf l1 = blockOf l2.
Proof.
  intros Hperm Hnodup. unfold blockOf.
  assert (merge_sort byPath l1 = merge_sort byPath l2) as ->; [|done].
  apply (Sorted_unique_strong byPath).
  - intros b1 b2 Hb1 Hb2 H12 H21.
    rewrite merge_sort_Permutation in Hb1, Hb2. rewrite <-Hperm in Hb2.
    apply (NoDup_fmap_eq path l1); [done..|].
    by apply (anti_symm String.le).
  - apply Sorted_merge_sort, _.
  - apply Sorted_merge_sort, _.
  - by rewrite !merge_sort_Permutation.
Qed.

Lemma NoDup_aliases t :
  distinctAliases t → NoDup (alias <$> (map_to_list t).*2).
Proof.
  intros Hinj. rewrite <-list_fmap_compose.
  apply NoDup_fmap_2_strong; [|apply NoDup_map_to_list].
  intros [p1 b1] [p2 b2] H1%elem_of_map_to_list H2%elem_of_map_to_list Heq.
  simpl in *. assert (p1 = p2) as -> by eauto. congruence.
Qed.

End ResolverProps.

(** * The importer of a generator *)

Section GeneratorImports.
Import resolver.
Context {lib : GoLib}.

(** Whatever the calls, the table of the generator has the two invariants. *)
Lemma declareAll_invariants (calls : list (string * Data)) :
  let t : table := importer (declareAll calls NewGenerator).1 in
  distinctAliases t ∧ keyedByPath t.
Proof.
  intros t. destruct (declareAll_ops calls NewGenerator) as [ops Hops].
  unfold t. rewrite Hops.
  destruct (applyOps_invariants ops ∅) as (Hinj & Hkey & _);
    [by intros ???? ?%lookup_empty_Some|by intros ?? ?%lookup_empty_Some|].
  split; [exact Hinj|exact Hkey].
Qed.

(** The import declaration that [Write] prepends is the same in whatever
    order the bindings of the table are visited. *)
Lemma declareAll_block_any_order (calls : list (string * Data)) order :
  let t : table := importer (declareAll calls NewGenerator).1 in
  order ≡ₚ (map_to_list t).*2 → blockOf order = importDecl t.
Proof.
  intros t Hperm. destruct (declareAll_invariants calls) as [_ Hkey].
  fold t in Hkey. simpl. unfold FinalBlock. symmetry.
  apply blockOf_Permutation; [done|].
  assert (path <$> (map_to_list t).*2 = (map_to_list t).*1) as ->;
    [|apply NoDup_fst_map_to_list].
  rewrite <-list_fmap_compose. apply list_fmap_ext.
  intros i [q b] Hqb%list_elem_of_lookup_2%elem_of_map_to_list. simpl.
  by apply Hkey.
Qed.

End GeneratorImports.

(** * The order in which the importer is visited *)

Section Determinism.
Import resolver.
Context {lib : GoLib}.

(** The calls of [DeclareFromTemplate] never ask for the import
    declaration: they run alike for every order of visit. *)
Lemma declareAll_visiting visit calls (g : Generator table) :
  declareAll (IM := visiting visit) calls g
  = declareAll (IM := spec_importer) calls g.
Proof. reflexivity. Qed.

(** C2.  Two fresh generators are driven by the same sequence of calls of
    [DeclareFromTemplate]; in each run the importer goes through the
    bindings of its table in an order of its own when [Write] asks for the
    import declaration.  The calls return the same results in both runs
    and leave the same generator, and [Write] (on the same file set)
    returns the same bytes, or the same error, in both: the import
    declaration is sorted by path and no two bindings of a table that the
    calls reach have the same path. *)
Theorem Write_deterministic (visit1 visit2 : table → list ImportBinding)
    calls fs g1 rs1 g2 rs2 :
  enumerates visit1 → enumerates visit2 →
  declareAll (IM := visiting visit1) calls NewGenerator = (g1, rs1) →
  declareAll (IM := visiting visit2) calls NewGenerator = (g2, rs2) →
  rs1 = rs2 ∧ g1 = g2 ∧
  (Write (IM := visiting visit1) fs g1).2
    = (Write (IM := visiting visit2) fs g2).2.
Proof.
  intros Hvisit1 Hvisit2 Hrun1 Hrun2.
  rewrite declareAll_visiting in Hrun1, Hrun2.
  change (NewGenerator (IM := visiting visit1))
    with (NewGenerator (IM := spec_importer)) in Hrun1.
  change (NewGenerator (IM := visiting visit2))
    with (NewGenerator (IM := spec_importer)) in Hrun2.
  rewrite Hrun1 in Hrun2. injection Hrun2 as <- <-. split_and!; [done..|].
  pose proof (declareAll_block_any_order calls (visit1 (importer g1)))
    as Hblock1.
  pose proof (declareAll_block_any_order calls (visit2 (importer g1)))
    as Hblock2.
  simpl in Hblock1, Hblock2. rewrite Hrun1 in Hblock1, Hblock2.
  simpl in Hblock1, Hblock2.
  unfold Write, writeFile. simpl. by rewrite Hblock1, Hblock2.
Qed.

End Determinism.

(** * The claims about the import resolver *)

Section ResolverClaims.
Import resolver.
Implicit Types (t : table) (p : string).

(** C4.  [Write] formats the file [todo] whose declarations are the import
    declaration of the importer, when there is one, and then the
    accumulated declarations in their order.  The importer has an import
    declaration exactly when an import was requested or merged; with none,
    the file has the accumulated declarations and nothing else.  The import
    declaration lists the bindings of the table, sorted by path. *)
Theorem Write_import_block_first {lib : GoLib} (g : Generator table)
    (fs : FileSet) :
  Write fs g =
    (g, format_Node fs
          {| ast.FileName := "todo";
             ast.Decls := option_list (importDecl (importer g)) ++ decls g |})
  ∧ (∀ ops, importDecl (applyOps ops newImporter) = None ↔ ops = [])
  ∧ (importer g = newImporter →
     Write fs g =
       (g, format_Node fs
             {| ast.FileName := "todo"; ast.Decls := decls g |}))
  ∧ (∀ d, importDecl (importer g) = Some d →
     ∃ sorted, d = ast.GenDecl ast.IMPORT (specOf <$> sorted) ∧
       sorted ≡ₚ (map_to_list (importer g)).*2 ∧ Sorted byPath sorted).
Proof.
  split_and!.
  - reflexivity.
  - intros ops. simpl. rewrite FinalBlock_None. split; [|by intros ->].
    destruct ops as [|op ops]; [done|]. intros Hempty.
    assert (is_Some (applyOps (op :: ops) (∅ : table) !! pathOf op))
      as [b Hb].
    { apply elem_of_dom.
      destruct (applyOps_invariants (op :: ops) ∅) as (_ & _ & ->);
        [by intros ???? ?%lookup_empty_Some
        |by intros ?? ?%lookup_empty_Some|].
      set_solver. }
    by rewrite Hempty, lookup_empty in Hb.
  - intros Hfresh. unfold Write, writeFile. by rewrite Hfresh.
  - intros d. apply blockOf_Some.
Qed.

(** C5.  In every state of the generator, a second call of [Import] on the
    same path returns the alias that the first call returned, and leaves
    the importer as the first call left it.  So a template that calls
    [import] twice on a path runs as if it had called it once and used the
    alias twice. *)
Theorem Import_idempotent (g : Generator table) p :
  (Import p (Import p (importer g)).2).1 = (Import p (importer g)).1 ∧
  (Import p (Import p (importer g)).2).2 = (Import p (importer g)).2 ∧
  ∀ k : string → string → Exec,
    runExec (ExecImport p (λ a1, ExecImport p (λ a2, k a1 a2))) (importer g)
    = runExec (ExecImport p (λ a, k a a)) (importer g).
Proof.
  destruct (Request_lookup p (importer g)) as (b & Hb & Halias).
  assert (Request p (Request p (importer g)).2 = Request p (importer g))
    as Hagain.
  { unfold Request at 1. rewrite Hb, Halias. by destruct (Request _ _). }
  split_and!; simpl; [by rewrite Hagain..|].
  intros k. destruct (Request p (importer g)) as [a1 t1]. simpl in Hagain.
  by rewrite Hagain.
Qed.

(** C6.  After any sequence of requests and merged literal imports on a
    new importer, the table binds exactly the paths that were named, no
    two of them to the same alias; the alias that a request returned is
    the one its path is bound to; and the final block lists every path
    with its alias. *)
Theorem aliases_pairwise_distinct (ops : list ImportOp) :
  let t : table := applyOps ops newImporter in
  dom t = list_to_set (pathOf <$> ops) ∧
  (∀ p1 p2 b1 b2,
     t !! p1 = Some b1 → t !! p2 = Some b2 → p1 ≠ p2 → alias b1 ≠ alias b2) ∧
  NoDup (alias <$> (map_to_list t).*2) ∧
  (∀ ops1 p ops2, ops = ops1 ++ Requested p :: ops2 →
     ∃ b, t !! p = Some b ∧
          alias b = (Import p (applyOps ops1 (newImporter : table))).1) ∧
  (∀ p b, t !! p = Some b →
     ∃ specs, importDecl t = Some (ast.GenDecl ast.IMPORT specs) ∧
       ast.ImportSpec_ {| ast.Name := Some (alias b); ast.Path := p |}
         ∈ specs).
Proof.
  intros t.
  assert (distinctAliases t ∧ keyedByPath t ∧
          dom t = list_to_set (pathOf <$> ops)) as (Hinj & Hkey & Hdom).
  { destruct (applyOps_invariants ops ∅) as (Hinj & Hkey & Hdom);
      [by intros ???? ?%lookup_empty_Some
      |by intros ?? ?%lookup_empty_Some|].
    split_and!; [exact Hinj|exact Hkey|].
    etrans; [exact Hdom|set_solver]. }
  split_and!.
  - done.
  - intros p1 p2 b1 b2 H1 H2 Hne Heq. apply Hne. eauto.
  - by apply NoDup_aliases.
  - intros ops1 p ops2 ->. unfold t. rewrite applyOps_app. simpl.
    destruct (Request_lookup p (applyOps ops1 ∅)) as (b & Hb & Halias).
    exists b. split; [|done]. by apply applyOps_lookup.
  - intros p b Hb. simpl.
    destruct (FinalBlock t) as [d|] eqn:Hblock.
    + destruct (blockOf_Some _ _ Hblock) as (sorted & -> & Hperm & _).
      eexists; split; [done|].
      rewrite <-(Hkey p b Hb). apply (list_elem_of_fmap_2 specOf).
      rewrite Hperm. apply list_elem_of_fmap. exists (p, b).
      split; [done|]. by apply elem_of_map_to_list.
    + apply FinalBlock_None in Hblock. by rewrite Hblock in Hb.
Qed.

End ResolverClaims.

(** * The generator on the examples *)

Section Examples.
Import resolver.

(** C1 as stated fails: a template that requests an import before it fails
    leaves the binding in the table, when the execution fails (a field
    that the data lacks) as well as when the rendered text does not
    parse. *)
Lemma DeclareFromTemplate_error_keeps_imports :
  (∃ g' e,
     DeclareFromTemplate importThenMissingField ([] : gofrag.Struct) fresh
       = (g', Error (template_error e)) ∧
     importer fresh !! "fmt" = None ∧
     importer g' !! "fmt" = Some (mkBinding "fmt" "fmt" Programmatic) ∧
     g' ≠ fresh) ∧
  (∃ g' errs,
     DeclareFromTemplate importAlone ([] : gofrag.Struct) fresh
       = (g', Error (scanner_ErrorList errs)) ∧
     importer g' !! "fmt" = Some (mkBinding "fmt" "fmt" Programmatic) ∧
     g' ≠ fresh).
Proof.
  split.
  - exists withFmt, "template: can't evaluate field Missing".
    split_and!; [reflexivity..|]. intros Heq.
    by apply (f_equal (λ g, importer g !! "fmt")) in Heq.
  - exists withFmt. eexists.
    split_and!; [reflexivity..|]. intros Heq.
    by apply (f_equal (λ g, importer g !! "fmt")) in Heq.
Qed.

Lemma DeclareFromTemplate_error_state_witness :
  DeclareFromTemplate importThenMissingField ([] : gofrag.Struct) fresh
    = (withFmt, Error (template_error "template: can't evaluate field Missing"))
  ∧ decls withFmt = decls fresh.
Proof.
  split; [reflexivity|].
  apply (DeclareFromTemplate_error_state (lib := gofrag.go)
           importThenMissingField
           ([] : gofrag.Struct) fresh withFmt
           (template_error "template: can't evaluate field Missing")).
  reflexivity.
Defined.

Lemma declarations_in_call_order_witness :
  declareAll [(typeTemplate, myTypeData); (varTemplate, counterData)] fresh
    = (twoDecls, [Nil; Nil])
  ∧ decls twoDecls
    = concat (snippets [(typeTemplate, myTypeData); (varTemplate, counterData)]
                fresh).
Proof.
  split; [reflexivity|].
  apply (declarations_in_call_order (lib := gofrag.go)
           [(typeTemplate, myTypeData); (varTemplate, counterData)]
           twoDecls [Nil; Nil]); [reflexivity|repeat constructor].
Defined.

(** The two snippets of that sequence, and what [Write] makes of them. *)
Example two_snippets :
  snippets [(typeTemplate, myTypeData); (varTemplate, counterData)] fresh
    = [[ast.GenDecl ast.TYPE [ast.TypeSpec "myType" "int32"]];
       [ast.GenDecl ast.VAR [ast.ValueSpec "counter" "int64"]]]
  ∧ (Write () twoDecls).2
    = inl ("package todo" +:+ LF +:+ LF +:+ "type myType int32" +:+ LF
             +:+ LF +:+ "var counter int64" +:+ LF).
Proof. split; reflexivity. Qed.

(** C7 as stated fails: the text rendered from [unfinishedVar] does not
    parse, and the error that [DeclareFromTemplate] returns is the one of
    the parser, a position and a message.  Its text repeats no piece of the
    text of the template, and its message none of the rendered text. *)
Lemma parse_error_without_excerpt :
  ∃ g' err,
    renderTemplate unfinishedVar ([] : gofrag.Struct) fresh
      = (g', inl ("package thriftrw" +:+ LF +:+ LF +:+ "var")) ∧
    DeclareFromTemplate unfinishedVar ([] : gofrag.Struct) fresh
      = (g', Error (scanner_ErrorList [err])) ∧
    errorText (scanner_ErrorList [err])
      = "thriftrw.go:3:4: expected 'IDENT', found 'EOF'" ∧
    includesExcerpt (scanner_ErrorList [err]) "var" = false ∧
    repeats (Msg err) ("package thriftrw" +:+ LF +:+ LF +:+ "var") = false.
Proof. eexists _, _. split_and!; reflexivity. Qed.

Lemma DeclareFromTemplate_parse_error_witness :
  renderTemplate unfinishedVar ([] : gofrag.Struct) fresh
    = (fresh, inl ("package thriftrw" +:+ LF +:+ LF +:+ "var")) ∧
  DeclareFromTemplate unfinishedVar ([] : gofrag.Struct) fresh
    = (fresh, Error (scanner_ErrorList
         [mkScannerError (mkPosition "thriftrw.go" 21 3 4)
            "expected 'IDENT', found 'EOF'"])).
Proof.
  split; [reflexivity|].
  eapply (DeclareFromTemplate_parse_error (lib := gofrag.go) unfinishedVar
            ([] : gofrag.Struct) fresh); reflexivity.
Defined.

(** C9.  On a fresh generator the call of the documentation returns nil and
    leaves one declaration, the type [myType] defined as [int32]; [Write]
    then writes the package clause and that declaration and nothing else,
    as the words of the output and its parse show. *)
Theorem round_trip_myType :
  ∃ g out,
    DeclareFromTemplate typeTemplate myTypeData fresh = (g, Nil) ∧
    ast.Decls (writeFile g)
      = [ast.GenDecl ast.TYPE [ast.TypeSpec "myType" "int32"]] ∧
    Write () g = (g, inl out) ∧
    String.words out = ["package"; "todo"; "type"; "myType"; "int32"] ∧
    parser_ParseFile "todo.go" out
      = inl {| ast.FileName := "todo";
               ast.Decls :=
                 [ast.GenDecl ast.TYPE [ast.TypeSpec "myType" "int32"]] |}.
Proof. eexists _, _. split_and!; reflexivity. Qed.

Lemma fixed_package_names_witness :
  renderTemplate typeTemplate myTypeData fresh
    = (fresh, inl ("package thriftrw" +:+ LF +:+ LF +:+ "type myType int32"))
  ∧ ∀ g0 : Generator table, ast.FileName (writeFile g0) = "todo".
Proof.
  split; [reflexivity|]. intros g0.
  destruct (fixed_package_names (lib := gofrag.go)
              typeTemplate myTypeData fresh fresh
              ("package thriftrw" +:+ LF +:+ LF +:+ "type myType int32")
              eq_refl) as (_ & _ & Hname).
  apply (Hname () g0).
Defined.

(** The template as the documentation of [DeclareFromTemplate] writes it,
    with spaces inside the action, declares the same type. *)
Example documented_template :
  DeclareFromTemplate "type {{ .Name }} int32" myTypeData fresh
    = ({| importer := ∅;
          decls := [ast.GenDecl ast.TYPE [ast.TypeSpec "myType" "int32"]] |},
       Nil).
Proof. reflexivity. Qed.

(** Two paths with the same last segment: the second request gets the
    suffixed alias, and the final block has both. *)
Example util_collision :
  let r1 := Import "a/util" (newImporter : table) in
  let r2 := Import "b/util" r1.2 in
  r1.1 = "util" ∧ r2.1 = "util2" ∧
  importDecl r2.2 =
    Some (ast.GenDecl ast.IMPORT
            [ast.ImportSpec_ (ast.mkImportSpec (Some "util") "a/util");
             ast.ImportSpec_ (ast.mkImportSpec (Some "util2") "b/util")]).
Proof. split_and!; reflexivity. Qed.

(** Two runs of the call with the two imports, one visiting the table
    from its first binding to its last and one from its last to its
    first: the orders of visit differ, the import declaration and the
    bytes do not. *)
Lemma Write_deterministic_witness :
  enumerates forwards ∧ enumerates backwards ∧
  forwards (importer mixedDeclared) ≠ backwards (importer mixedDeclared) ∧
  declareAll (IM := visiting forwards) (lib := gofrag.go)
    [(mixedImports, ([] : gofrag.Struct))] NewGenerator
    = (mixedDeclared, [Nil]) ∧
  declareAll (IM := visiting backwards) (lib := gofrag.go)
    [(mixedImports, ([] : gofrag.Struct))] NewGenerator
    = (mixedDeclared, [Nil]) ∧
  (Write (IM := visiting forwards) (lib := gofrag.go) () mixedDeclared).2
    = (Write (IM := visiting backwards) (lib := gofrag.go) () mixedDeclared).2.
Proof.
  assert (enumerates forwards) as Hforwards by (intros t; reflexivity).
  assert (enumerates backwards) as Hbackwards.
  { intros t. unfold backwards. apply reverse_Permutation. }
  split_and!; [exact Hforwards|exact Hbackwards| |reflexivity|reflexivity|].
  - vm_compute. discriminate.
  - apply (Write_deterministic (lib := gofrag.go) forwards backwards
             [(mixedImports, ([] : gofrag.Struct))] () mixedDeclared [Nil]
             mixedDeclared [Nil] Hforwards Hbackwards);
      reflexivity.
Defined.

End Examples.

(** * More properties of generator.go, for every importer and library *)

Section GeneratorMore.
Context {I : Type} {IM : Importer I} {lib : GoLib}.
Implicit Types (g : Generator I) (s : string) (data : Data).

(** The loops do to a generator with earlier declarations what they do to
    one without, after those declarations. *)
Lemma addImportSpecs_shift imports g pre :
  addImportSpecs imports {| importer := importer g; decls := pre ++ decls g |}
  = ({| importer := importer (addImportSpecs imports g).1;
        decls := pre ++ decls (addImportSpecs imports g).1 |},
     (addImportSpecs imports g).2).
Proof.
  revert g. induction imports as [|[imp|n t|n t] rest IH]; intros g; simpl;
    [done| |done..].
  apply (IH {| importer := addImportSpec imp (importer g);
               decls := decls g |}).
Qed.

Lemma declareDecls_shift ds g pre :
  declareDecls ds {| importer := importer g; decls := pre ++ decls g |}
  = ({| importer := importer (declareDecls ds g).1;
        decls := pre ++ decls (declareDecls ds g).1 |},
     (declareDecls ds g).2).
Proof.
  revert g. induction ds as [|d rest IH]; intros g; simpl; [done|].
  assert (∀ d', appendDecl d' {| importer := importer g;
                                  decls := pre ++ decls g |}
                = {| importer := importer (appendDecl d' g);
                     decls := pre ++ decls (appendDecl d' g) |}) as Happ.
  { intros d'. unfold appendDecl. simpl. by rewrite <-app_assoc. }
  destruct d as [[] specs|n t|]; rewrite ?Happ; try apply IH.
  rewrite addImportSpecs_shift.
  destruct (addImportSpecs specs g) as [g1 [|e|]]; simpl; [apply IH|done..].
Qed.

Lemma generator_eta g : {| importer := importer g; decls := decls g |} = g.
Proof. by destruct g. Qed.

Lemma addImportSpecs_checked imports g :
  addImportSpecs imports g =
    if forallb (λ sp, match sp with ast.ImportSpec_ _ => true | _ => false end)
         imports
    then ({| importer := foldl (λ i imp, addImportSpec imp i) (importer g)
                           (importSpecsIn imports);
             decls := decls g |}, Nil)
    else ((addImportSpecs imports g).1, Panic).
Proof.
  revert g. induction imports as [|[imp|n t|n t] rest IH]; intros g; simpl;
    [by rewrite generator_eta| |done..].
  rewrite IH. by destruct (forallb _ rest).
Qed.

Lemma importSpecsOf_cons d ds :
  importSpecsOf (d :: ds) = importSpecsOf [d] ++ importSpecsOf ds.
Proof. unfold importSpecsOf. csimpl. by rewrite app_nil_r. Qed.

(** The loop over the declarations of a file: it panics exactly when an
    import declaration has a spec of another kind; otherwise it merges the
    import specs and appends the other declarations, all in the order of
    the file. *)
Lemma declareDecls_checked ds g :
  declareDecls ds g =
    if forallb importsOnly ds
    then ({| importer := foldl (λ i imp, addImportSpec imp i) (importer g)
                           (importSpecsOf ds);
             decls := decls g ++ filter (λ d, isImportDecl d = false) ds |},
          Nil)
    else ((declareDecls ds g).1, Panic).
Proof.
  revert g. induction ds as [|d rest IH]; intros g.
  { simpl. by rewrite app_nil_r, generator_eta. }
  assert (isImportDecl d = false →
          declareDecls (d :: rest) g = declareDecls rest (appendDecl d g) ∧
          importsOnly d = true ∧ importSpecsOf [d] = []) as Hother.
  { destruct d as [[] specs|n t|]; by intros. }
  rewrite importSpecsOf_cons, foldl_app. cbn [forallb].
  destruct (isImportDecl d) eqn:Himp.
  - destruct d as [[] specs|n t|]; try done.
    assert (importSpecsOf [ast.GenDecl ast.IMPORT specs]
            = importSpecsIn specs) as ->.
    { unfold importSpecsOf. csimpl. by rewrite app_nil_r. }
    rewrite filter_cons_False by (simpl; congruence).
    cbn [declareDecls importsOnly]. rewrite addImportSpecs_checked.
    destruct (forallb _ specs); cbn [andb]; [|done].
    rewrite IH. by destruct (forallb importsOnly rest).
  - destruct (Hother eq_refl) as (-> & -> & ->).
    rewrite filter_cons_True by done. cbn [andb foldl].
    rewrite IH. destruct (forallb importsOnly rest); [|done].
    unfold appendDecl. simpl. by rewrite <-app_assoc.
Qed.

(** Whatever the loop returns, it has appended declarations of the file
    that are no imports, from the first on and in their order. *)
Lemma declareDecls_prefix ds g :
  ∃ new, decls (declareDecls ds g).1 = decls g ++ new ∧
         new `prefix_of` filter (λ d, isImportDecl d = false) ds.
Proof.
  revert g. induction ds as [|d rest IH]; intros g; simpl.
  { exists []. by rewrite app_nil_r. }
  assert (isImportDecl d = false →
          ∃ new, decls (declareDecls rest (appendDecl d g)).1 = decls g ++ new
            ∧ new `prefix_of` filter (λ d, isImportDecl d = false) (d :: rest))
    as Hother.
  { intros Hd. destruct (IH (appendDecl d g)) as (new & Hnew & Hpre).
    exists (d :: new). simpl in Hnew. rewrite Hnew, <-app_assoc. split; [done|].
    rewrite filter_cons_True by done. by apply prefix_cons. }
  destruct d as [[] specs|n t|]; try by apply Hother.
  pose proof (addImportSpecs_decls specs g) as Hd.
  rewrite filter_cons_False by (simpl; congruence).
  destruct (addImportSpecs specs g) as [g1 [|e|]]; simpl in *.
  - destruct (IH g1) as (new & Hnew & Hpre). exists new. by rewrite Hnew, Hd.
  - exists []. rewrite app_nil_r. split; [done|apply prefix_nil].
  - exists []. rewrite app_nil_r. split; [done|apply prefix_nil].
Qed.

Lemma runExec_requests x (i : I) :
  (runExec x i).1 = applyOps (Requested <$> requestsOf x i) i.
Proof.
  revert i. induction x as [out|msg|p k IH]; intros i; simpl; [done..|].
  destruct (Import p i) as [a i'] eqn:Himp. simpl.
  unfold applyOps in *. simpl. rewrite Himp. apply IH.
Qed.

Lemma renderTemplate_requests s data g :
  importer (renderTemplate s data g).1
  = applyOps (Requested <$> requested s data g) (importer g).
Proof.
  rewrite renderTemplate_importer. unfold requested.
  destruct (template_Parse _ _ s); [apply runExec_requests|done].
Qed.

Lemma renderTemplate_shift s data g pre :
  renderTemplate s data {| importer := importer g; decls := pre ++ decls g |}
  = ({| importer := importer (renderTemplate s data g).1;
        decls := pre ++ decls (renderTemplate s data g).1 |},
     (renderTemplate s data g).2).
Proof.
  unfold renderTemplate. simpl.
  destruct (template_Parse _ _ s) as [tmpl|msg]; [|done].
  by destruct (runExec _ _) as [i' [out|msg]].
Qed.

Lemma DeclareFromTemplate_shift s data g pre :
  DeclareFromTemplate s data
    {| importer := importer g; decls := pre ++ decls g |}
  = ({| importer := importer (DeclareFromTemplate s data g).1;
        decls := pre ++ decls (DeclareFromTemplate s data g).1 |},
     (DeclareFromTemplate s data g).2).
Proof.
  unfold DeclareFromTemplate. rewrite renderTemplate_shift.
  destruct (renderTemplate s data g) as [g1 [bs|err]]; simpl; [|done].
  destruct (parser_ParseFile _ bs) as [f|errs]; [|done].
  apply declareDecls_shift.
Qed.

(** The loop appends the declarations that are no imports up to the one on
    which it panics, whatever it returns. *)
Lemma declareDecls_until ds g :
  decls (declareDecls ds g).1
  = decls g ++ filter (λ d, isImportDecl d = false) (untilOffending ds).
Proof.
  revert g. induction ds as [|d rest IH]; intros g.
  { simpl. by rewrite app_nil_r. }
  destruct (isImportDecl d) eqn:Himp.
  - destruct d as [[] specs|n t|]; try done.
    cbn [declareDecls untilOffending importsOnly].
    rewrite addImportSpecs_checked.
    destruct (forallb _ specs); simpl.
    + rewrite filter_cons_False by (simpl; congruence). by rewrite IH.
    + pose proof (addImportSpecs_decls specs g) as Hd. simpl in Hd.
      by rewrite Hd, app_nil_r.
  - assert (declareDecls (d :: rest) g = declareDecls rest (appendDecl d g)
            ∧ importsOnly d = true) as [-> Hok].
    { by destruct d as [[] specs|n t|]. }
    cbn [untilOffending]. rewrite Hok, IH, filter_cons_True by done.
    unfold appendDecl. simpl. by rewrite <-app_assoc.
Qed.

Lemma untilOffending_all ds :
  forallb importsOnly ds = true → untilOffending ds = ds.
Proof.
  induction ds as [|d rest IH]; simpl; [done|].
  destruct (importsOnly d); simpl; [|done]. intros Hrest. by rewrite IH.
Qed.

(** The declarations before the first offending one. *)
Lemma untilOffending_split ds :
  forallb importsOnly ds = false →
  ∃ bad after,
    ds = untilOffending ds ++ bad :: after ∧ importsOnly bad = false ∧
    forallb importsOnly (untilOffending ds) = true.
Proof.
  induction ds as [|d rest IH]; simpl; [done|].
  destruct (importsOnly d) eqn:Hd; simpl.
  - intros Hrest. destruct (IH Hrest) as (bad & after & Heq & Hbad & Hall).
    exists bad, after. rewrite Hd. simpl. by rewrite <-Heq.
  - intros _. by exists d, rest.
Qed.

Lemma untilOffending_prefix ds : untilOffending ds `prefix_of` ds.
Proof.
  induction ds as [|d rest IH]; simpl; [done|].
  destruct (importsOnly d); [by apply prefix_cons|apply prefix_nil].
Qed.

End GeneratorMore.

(** * More about generator.go *)

Section GeneratorExtras.
Context {I : Type} {IM : Importer I} {lib : GoLib}.
Implicit Types (g : Generator I) (s : string) (data : Data).

(** X1.  Whatever a call of [DeclareFromTemplate] comes to, it keeps the
    declarations there are, in their order, and appends declarations of its
    snippet from the first on: all of them when it returns nil, none when
    it returns an error, and when it panics those that stand in the parsed
    file before the import declaration on which it panics. *)
Theorem DeclareFromTemplate_extends s data g :
  decls (DeclareFromTemplate s data g).1 = decls g ++ appended s data g ∧
  appended s data g `prefix_of` snippet s data g ∧
  ((DeclareFromTemplate s data g).2 = Nil →
   appended s data g = snippet s data g) ∧
  (∀ e, (DeclareFromTemplate s data g).2 = Error e →
   appended s data g = []) ∧
  ((DeclareFromTemplate s data g).2 = Panic →
   ∃ g1 bs f before bad after,
     renderTemplate s data g = (g1, inl bs) ∧
     parser_ParseFile "thriftrw.go" bs = inl f ∧
     ast.Decls f = before ++ bad :: after ∧
     forallb importsOnly before = true ∧ importsOnly bad = false ∧
     appended s data g = filter (λ d, isImportDecl d = false) before).
Proof.
  unfold DeclareFromTemplate, snippet, appended, ownDecls.
  pose proof (renderTemplate_decls s data g) as Hd.
  destruct (renderTemplate s data g) as [g1 [bs|err]] eqn:Hrender;
    simpl in *.
  - destruct (parser_ParseFile _ bs) as [f|errs] eqn:Hparse; simpl.
    + split_and!.
      * by rewrite declareDecls_until, Hd.
      * destruct (untilOffending_prefix (ast.Decls f)) as [rest Hrest].
        rewrite Hrest at 2. rewrite filter_app. by eexists.
      * rewrite declareDecls_checked.
        destruct (forallb importsOnly (ast.Decls f)) eqn:Hall; [|done].
        by rewrite untilOffending_all.
      * intros e He. by destruct (declareDecls_ret (ast.Decls f) g1 e).
      * rewrite declareDecls_checked.
        destruct (forallb importsOnly (ast.Decls f)) eqn:Hall; [done|].
        intros _.
        destruct (untilOffending_split _ Hall)
          as (bad & after & Heq & Hbad & Hbefore).
        by exists g1, bs, f, (untilOffending (ast.Decls f)), bad, after.
    + rewrite app_nil_r. by split_and!.
  - rewrite app_nil_r. by split_and!.
Qed.

(** X2.  In a generator that a program gets from [NewGenerator] by calls of
    [DeclareFromTemplate] and [Write], no accumulated declaration is an
    import declaration: an import declaration in the file that [Write]
    formats can only be the one of the importer. *)
Theorem reached_imports_from_importer g :
  reached g →
  Forall (λ d, isImportDecl d = false) (decls g) ∧
  ∀ d, d ∈ ast.Decls (writeFile g) → isImportDecl d = true →
       importDecl (importer g) = Some d.
Proof.
  intros Hreached.
  assert (Forall (λ d, isImportDecl d = false) (decls g)) as Hall.
  { induction Hreached as [|s data g _ IH|fs g _ IH]; [by constructor| |done].
    pose proof (declareDecls_prefix) as Hloop.
    pose proof (renderTemplate_decls s data g) as Hd.
    unfold DeclareFromTemplate.
    destruct (renderTemplate s data g) as [g1 [bs|err]]; simpl in *;
      [|by rewrite Hd].
    destruct (parser_ParseFile _ bs) as [f|errs]; simpl; [|by rewrite Hd].
    destruct (Hloop (ast.Decls f) g1) as (new & -> & [rest Hpre]).
    rewrite Hd. apply Forall_app. split; [done|].
    assert (Forall (λ d, isImportDecl d = false)
              (filter (λ d, isImportDecl d = false) (ast.Decls f))) as Hf.
    { apply Forall_forall. by intros d [? _]%list_elem_of_filter. }
    rewrite Hpre in Hf. by apply Forall_app in Hf as [? _]. }
  split; [done|]. intros d. rewrite writeFile_Decls, elem_of_app.
  intros [Hd|Hd] Himp.
  - destruct (importDecl _) as [d'|]; simpl in Hd;
      [by apply list_elem_of_singleton in Hd as ->|by apply elem_of_nil in Hd].
  - rewrite Forall_forall in Hall. apply Hall in Hd. congruence.
Qed.

(** X3.  When [DeclareFromTemplate] returns nil, the importer has seen
    first the paths that the template requested while it executed, in the
    order of the calls of [import], and then the import specs of the parsed
    snippet, in the order of the snippet, and nothing else. *)
Theorem DeclareFromTemplate_importer s data g g1 bs f g' :
  renderTemplate s data g = (g1, inl bs) →
  parser_ParseFile "thriftrw.go" bs = inl f →
  DeclareFromTemplate s data g = (g', Nil) →
  importer g' =
    applyOps ((Requested <$> requested s data g)
                ++ (Merged <$> importSpecsOf (ast.Decls f)))
      (importer g).
Proof.
  intros Hrender Hparse. unfold DeclareFromTemplate.
  pose proof (renderTemplate_requests s data g) as Hreq.
  rewrite Hrender in *. rewrite Hparse. simpl in Hreq.
  rewrite declareDecls_checked.
  destruct (forallb importsOnly (ast.Decls f)); [|done].
  intros [= <-]. simpl. rewrite applyOps_app, <-Hreq.
  generalize (importer g1). unfold applyOps.
  induction (importSpecsOf (ast.Decls f)) as [|imp imps IH]; intros i;
    [done|apply IH].
Qed.

(** X4.  Once the rendered text has parsed, [DeclareFromTemplate] returns
    nil or panics, and it panics exactly when an import declaration of the
    file has a spec that is no import spec. *)
Theorem DeclareFromTemplate_panics_iff s data g g1 bs f :
  renderTemplate s data g = (g1, inl bs) →
  parser_ParseFile "thriftrw.go" bs = inl f →
  (DeclareFromTemplate s data g).2 =
    if forallb importsOnly (ast.Decls f) then Nil else Panic.
Proof.
  intros Hrender Hparse. unfold DeclareFromTemplate.
  rewrite Hrender, Hparse, declareDecls_checked.
  by destruct (forallb importsOnly (ast.Decls f)).
Qed.

(** X5.  The declarations there are have no part in a call of
    [DeclareFromTemplate]: on two generators with the same importer it
    returns the same result, leaves the same importer and appends the same
    declarations. *)
Theorem DeclareFromTemplate_ignores_decls s data g1 g2 :
  importer g1 = importer g2 →
  (DeclareFromTemplate s data g1).2 = (DeclareFromTemplate s data g2).2 ∧
  importer (DeclareFromTemplate s data g1).1
    = importer (DeclareFromTemplate s data g2).1 ∧
  ∃ new, decls (DeclareFromTemplate s data g1).1 = decls g1 ++ new ∧
         decls (DeclareFromTemplate s data g2).1 = decls g2 ++ new.
Proof.
  intros Hsame.
  set (g0 := {| importer := importer g1; decls := [] |}).
  assert (g1 = {| importer := importer g0; decls := decls g1 ++ decls g0 |})
    as Hg1 by (destruct g1; simpl; by rewrite app_nil_r).
  assert (g2 = {| importer := importer g0; decls := decls g2 ++ decls g0 |})
    as Hg2 by (destruct g2; simpl in *; by rewrite app_nil_r, Hsame).
  pose proof (DeclareFromTemplate_shift s data g0 (decls g1)) as H1.
  pose proof (DeclareFromTemplate_shift s data g0 (decls g2)) as H2.
  rewrite <-Hg1 in H1. rewrite <-Hg2 in H2. rewrite H1, H2. simpl.
  split_and!; [done..|].
  by exists (decls (DeclareFromTemplate s data g0).1).
Qed.

End GeneratorExtras.

Section GeneratorExtrasExamples.
Import resolver.

(** The generator after the call on [mixedImports] has one declaration,
    and the file that [Write] builds from it has the import declaration of
    the importer before it. *)
Lemma reached_imports_from_importer_witness :
  reached (lib := gofrag.go) mixedDeclared ∧
  ast.Decls (writeFile mixedDeclared)
    = [ast.GenDecl ast.IMPORT
         [ast.ImportSpec_ (ast.mkImportSpec (Some "util") "a/util");
          ast.ImportSpec_ (ast.mkImportSpec (Some "util2") "b/util")];
       ast.GenDecl ast.VAR [ast.ValueSpec "x" "util"]] ∧
  Forall (λ d, isImportDecl d = false) (decls mixedDeclared) ∧
  ∀ d, d ∈ ast.Decls (writeFile mixedDeclared) → isImportDecl d = true →
       importDecl (importer mixedDeclared) = Some d.
Proof.
  assert (reached (lib := gofrag.go) mixedDeclared) as Hreached.
  { change mixedDeclared
      with (DeclareFromTemplate (lib := gofrag.go) mixedImports
              ([] : gofrag.Struct) fresh).1.
    apply reached_declare, reached_new. }
  split_and!; [done|reflexivity|..];
    apply (reached_imports_from_importer (lib := gofrag.go) mixedDeclared
             Hreached).
Defined.

(** The loop on a file whose import declaration holds a value spec: it
    panics there, with the declaration before it appended and the one
    after it not. *)
Example declareDecls_panics :
  declareDecls
    [ast.GenDecl ast.TYPE [ast.TypeSpec "a" "int32"];
     ast.GenDecl ast.IMPORT [ast.ValueSpec "b" "int32"];
     ast.GenDecl ast.VAR [ast.ValueSpec "c" "int32"]] fresh
  = ({| importer := ∅;
        decls := [ast.GenDecl ast.TYPE [ast.TypeSpec "a" "int32"]] |},
     Panic).
Proof. reflexivity. Qed.

(** The request of the template comes first, although the literal import
    stands first in the snippet: [a/util] is bound to [util] and [b/util]
    to [util2]. *)
Lemma DeclareFromTemplate_importer_witness :
  renderTemplate mixedImports ([] : gofrag.Struct) fresh
    = (mixedRendered, inl mixedText) ∧
  parser_ParseFile "thriftrw.go" mixedText = inl mixedFile ∧
  DeclareFromTemplate mixedImports ([] : gofrag.Struct) fresh
    = (mixedDeclared, Nil) ∧
  importer mixedDeclared =
    applyOps [Requested "a/util"; Merged (ast.mkImportSpec None "b/util")]
      (importer fresh).
Proof.
  split_and!; [reflexivity..|].
  exact (DeclareFromTemplate_importer (lib := gofrag.go) mixedImports
           ([] : gofrag.Struct) fresh mixedRendered mixedText mixedFile
           mixedDeclared eq_refl eq_refl eq_refl).
Defined.

Lemma DeclareFromTemplate_panics_iff_witness :
  renderTemplate mixedImports ([] : gofrag.Struct) fresh
    = (mixedRendered, inl mixedText) ∧
  parser_ParseFile "thriftrw.go" mixedText = inl mixedFile ∧
  (DeclareFromTemplate mixedImports ([] : gofrag.Struct) fresh).2 = Nil.
Proof.
  split_and!; [reflexivity..|].
  exact (DeclareFromTemplate_panics_iff (lib := gofrag.go) mixedImports
           ([] : gofrag.Struct) fresh mixedRendered mixedText mixedFile
           eq_refl eq_refl).
Defined.

Lemma DeclareFromTemplate_ignores_decls_witness :
  importer fresh = importer twoDecls ∧
  (DeclareFromTemplate typeTemplate myTypeData fresh).2
    = (DeclareFromTemplate typeTemplate myTypeData twoDecls).2.
Proof.
  split; [reflexivity|].
  apply (DeclareFromTemplate_ignores_decls (lib := gofrag.go)
           typeTemplate myTypeData fresh twoDecls).
  reflexivity.
Defined.

End GeneratorExtrasExamples.

(** * The generator in memory *)

Section MemoryProps.
Context {I : Type} {IM : Importer I} {lib : GoLib}.
Variable grow : nat → nat → nat.
Implicit Types (h : mem.Heap) (s t : mem.Slice) (xs : list ast.Decl).
Implicit Types (st : mem.Heap * mem.Generator I).

Lemma omap_id_Some (ds : list ast.Decl) : omap id (Some <$> ds) = ds.
Proof. induction ds as [|d ds IH]; [done|]. csimpl. by rewrite IH. Qed.

(** The elements of a slice that is in order are the declarations in the
    cells below its length. *)
Lemma elements_wf h s ds rest :
  length ds = mem.len s →
  mem.cap s = 0 ∨ h !! mem.array s = Some ((Some <$> ds) ++ rest) →
  length ds + length rest = mem.cap s →
  mem.elements h s = ds.
Proof.
  intros Hlen [Hcap|Hcells] Hsum; unfold mem.elements.
  - assert (mem.len s = 0) as Hzero by lia. rewrite Hzero in *.
    by destruct ds.
  - rewrite Hcells. simpl. rewrite <-Hlen.
    rewrite take_app_length' by by rewrite length_fmap.
    apply omap_id_Some.
Qed.

(** What a slice holds depends on its own backing array only. *)
Lemma wfSlice_frame h h' t :
  mem.wfSlice h t →
  (mem.cap t ≠ 0 → h' !! mem.array t = h !! mem.array t) →
  mem.wfSlice h' t ∧ mem.elements h' t = mem.elements h t.
Proof.
  intros (ds & rest & Hlen & Hsum & Hcells) Hsame.
  assert (mem.cap t = 0 ∨ h' !! mem.array t = Some ((Some <$> ds) ++ rest))
    as Hcells'.
  { destruct (decide (mem.cap t = 0)) as [?|Hcap]; [by left|]. right.
    rewrite Hsame by done. by destruct Hcells. }
  split; [by exists ds, rest|].
  by rewrite (elements_wf h' t ds rest), (elements_wf h t ds rest).
Qed.

(** [make] takes an array that the heap does not have yet and leaves the
    others as they are. *)
Lemma make_spec n h h' s' :
  mem.make n h = (h', s') →
  (mem.array s' ∉ dom h) ∧
  (∀ a, a ∈ dom h → h' !! a = h !! a) ∧
  dom h ⊆ dom h' ∧
  mem.wfSlice h' s' ∧ mem.elements h' s' = [] ∧
  mem.len s' = 0 ∧ mem.cap s' = n.
Proof.
  unfold mem.make. intros [= <- <-]. simpl.
  pose proof (is_fresh (dom h)) as Hfresh.
  split_and!; [done| |set_solver| |done..].
  - intros a Ha. rewrite lookup_insert_ne; [done|]. by intros <-.
  - exists [], (replicate n None). simpl. rewrite length_replicate.
    split_and!; [done..|]. right. by rewrite lookup_insert_eq.
Qed.

(** [append] on a slice that is in order: the new slice is in order and
    holds the old elements and then the new; the old slice still holds
    what it held; no array but that of the old slice is written, and that
    one only when the capacity allows. *)
Lemma append_spec h s xs h' s' :
  mem.wfSlice h s →
  mem.append grow h s xs = (h', s') →
  mem.wfSlice h' s' ∧
  mem.elements h' s' = mem.elements h s ++ xs ∧
  mem.elements h' s = mem.elements h s ∧
  (∀ a, a ∈ dom h → a ≠ mem.array s → h' !! a = h !! a) ∧
  (mem.cap s < mem.len s + length xs → ∀ a, a ∈ dom h → h' !! a = h !! a) ∧
  dom h ⊆ dom h' ∧
  (mem.array s' = mem.array s ∨ mem.array s' ∉ dom h).
Proof.
  intros (ds & rest & Hlen & Hsum & Hcells).
  pose proof (elements_wf h s ds rest Hlen Hcells Hsum) as Hds.
  unfold mem.append. destruct (decide (_ ≤ _)) as [Hfits|Hmoves];
    intros [= <- <-]; simpl.
  - (* the capacity allows: the cells after the length are written *)
    destruct Hcells as [Hcap|Hcells].
    { assert (xs = [] ∧ ds = [] ∧ rest = []) as (-> & -> & ->).
      { destruct xs, ds, rest; simpl in *; try lia; done. }
      assert (mem.len s = 0) as Hzero by (simpl in *; lia).
      assert (∀ h', mem.elements h'
                 {| mem.array := mem.array s; mem.len := mem.len s + 0;
                    mem.cap := mem.cap s |} = []) as Hnil.
      { intros h'. unfold mem.elements. simpl. by rewrite Hzero. }
      split_and!.
      - exists [], []. simpl. split_and!; [lia|lia|by left].
      - by rewrite Hnil, Hds.
      - unfold mem.elements. by rewrite Hzero.
      - intros a _ Hne. by rewrite lookup_alter_ne.
      - simpl. lia.
      - by rewrite dom_alter_L.
      - by left. }
    assert (length xs ≤ length rest) as Hroom by lia.
    assert (alter (λ cells, take (mem.len s) cells ++ (Some <$> xs)
                              ++ drop (mem.len s + length xs) cells)
              (mem.array s) h !! mem.array s
            = Some ((Some <$> (ds ++ xs)) ++ drop (length xs) rest))
      as Hnew.
    { rewrite lookup_alter_eq, Hcells. simpl. f_equal. rewrite <-Hlen.
      rewrite take_app_length' by by rewrite length_fmap.
      rewrite fmap_app, <-app_assoc. do 2 f_equal.
      rewrite drop_app_ge by (rewrite length_fmap; lia).
      f_equal. rewrite length_fmap. lia. }
    split_and!.
    + exists (ds ++ xs), (drop (length xs) rest). simpl.
      rewrite length_app, length_drop. split_and!; [lia|lia|by right].
    + rewrite Hds.
      apply (elements_wf _ _ (ds ++ xs) (drop (length xs) rest)); simpl;
        rewrite ?length_app, ?length_drop; [lia|by right|lia].
    + rewrite Hds. unfold mem.elements. rewrite Hnew. simpl.
      rewrite fmap_app, <-app_assoc, <-Hlen.
      rewrite take_app_length' by by rewrite length_fmap.
      apply omap_id_Some.
    + intros a _ Hne. by rewrite lookup_alter_ne.
    + lia.
    + by rewrite dom_alter_L.
    + by left.
  - (* the capacity does not allow: the elements move to a new array *)
    pose proof (is_fresh (dom h)) as Hfresh.
    set (a := base.fresh (dom h)) in *.
    set (c := (mem.len s + length xs) `max`
                grow (mem.cap s) (mem.len s + length xs)).
    assert (∀ b, b ∈ dom h →
      <[a := (Some <$> mem.elements h s) ++ (Some <$> xs)
               ++ replicate (c - (mem.len s + length xs)) None]> h !! b
      = h !! b) as Hkept.
    { intros b Hb. rewrite lookup_insert_ne; [done|]. by intros <-. }
    rewrite Hds in *. split_and!.
    + exists (ds ++ xs), (replicate (c - (mem.len s + length xs)) None).
      simpl. rewrite length_app, length_replicate.
      split_and!; [lia|lia|]. right.
      by rewrite lookup_insert_eq, fmap_app, <-app_assoc.
    + apply (elements_wf _ _ (ds ++ xs)
               (replicate (c - (mem.len s + length xs)) None)); simpl;
        rewrite ?length_app, ?length_replicate; [lia| |lia].
      right. by rewrite lookup_insert_eq, fmap_app, <-app_assoc.
    + etrans; [|exact Hds].
      apply (wfSlice_frame h); [by exists ds, rest|].
      intros Hcap. destruct Hcells as [?|Hcells]; [done|].
      apply Hkept, elem_of_dom. by rewrite Hcells.
    + intros b Hb _. by apply Hkept.
    + intros _. apply Hkept.
    + set_solver.
    + by right.
Qed.


(** The memory of a new generator is in order, and the calls keep it so
    (see [DeclareFromTemplate_mem] and [Write_mem]). *)
Lemma wf_NewGenerator : wf (mem.NewGenerator (I := I)).
Proof. exists [], []. split_and!; [done..|by left]. Qed.

Lemma wf_importer h (g g' : mem.Generator I) :
  mem.decls g' = mem.decls g → wf (h, g) → wf (h, g').
Proof. unfold wf. simpl. by intros ->. Qed.

(** [renderTemplate] in memory is [renderTemplate] on the generator that
    the memory stands for, and leaves the slice [decls] as it is. *)
Lemma renderTemplate_mem (s : string) data h (g : mem.Generator I) :
  mem.decls (mem.renderTemplate s data g).1 = mem.decls g ∧
  renderTemplate s data (abs (h, g))
  = (abs (h, (mem.renderTemplate s data g).1),
     (mem.renderTemplate s data g).2).
Proof.
  unfold renderTemplate, mem.renderTemplate, abs. simpl.
  destruct (template_Parse _ _ s) as [tmpl|msg]; [|done].
  destruct (runExec _ _) as [i' [out|msg]]; done.
Qed.

Lemma addImportSpecs_mem imports h (g : mem.Generator I) :
  mem.decls (mem.addImportSpecs imports g).1 = mem.decls g ∧
  addImportSpecs imports (abs (h, g))
  = (abs (h, (mem.addImportSpecs imports g).1),
     (mem.addImportSpecs imports g).2).
Proof.
  revert g. induction imports as [|[imp|n t|n t] rest IH]; intros g; simpl;
    [done| |done..].
  destruct (IH {| mem.importer := addImportSpec imp (mem.importer g);
                  mem.decls := mem.decls g |}) as [Hd Hr].
  split; [done|]. by rewrite <-Hr.
Qed.

(** [appendDecl] in memory: the state stays in order, stands for the
    generator with the declaration appended, and keeps the arrays it
    had. *)
Lemma appendDecl_mem decl st :
  wf st →
  wf (mem.appendDecl grow decl st) ∧
  abs (mem.appendDecl grow decl st) = appendDecl decl (abs st) ∧
  dom st.1 ⊆ dom (mem.appendDecl grow decl st).1.
Proof.
  intros Hwf. unfold mem.appendDecl.
  destruct (mem.append grow st.1 (mem.decls st.2) [decl]) as [h' s']
    eqn:Happ.
  destruct (append_spec _ _ _ _ _ Hwf Happ)
    as (Hwf' & Helems & _ & _ & _ & Hdom & _).
  split_and!; [done| |done].
  unfold abs, declarations, appendDecl. simpl. by rewrite Helems.
Qed.

Lemma declareDecls_mem ds st :
  wf st →
  wf (mem.declareDecls grow ds st).1 ∧
  declareDecls ds (abs st)
  = (abs (mem.declareDecls grow ds st).1, (mem.declareDecls grow ds st).2).
Proof.
  revert st. induction ds as [|d rest IH]; intros [h g] Hwf; [done|].
  assert (∀ d', d' = d → isImportDecl d' = false →
            wf (mem.declareDecls grow rest (mem.appendDecl grow d' (h, g))).1 ∧
            declareDecls rest (appendDecl d' (abs (h, g)))
            = (abs (mem.declareDecls grow rest
                      (mem.appendDecl grow d' (h, g))).1,
               (mem.declareDecls grow rest
                  (mem.appendDecl grow d' (h, g))).2)) as Hother.
  { intros d' _ _.
    destruct (appendDecl_mem d' (h, g) Hwf) as (Hwf' & <- & _).
    by apply IH. }
  destruct d as [[] specs|n t|]; simpl;
    try (by apply (Hother _ eq_refl eq_refl)).
  destruct (addImportSpecs_mem specs h g) as [Hd Hr].
  rewrite Hr.
  destruct (mem.addImportSpecs specs g) as [g' r]; simpl in *.
  assert (wf (h, g')) as Hwf' by by apply (wf_importer h g).
  destruct r; [by apply IH|done..].
Qed.

(** [DeclareFromTemplate] in memory is [DeclareFromTemplate] on the
    generator that the memory stands for. *)
Lemma DeclareFromTemplate_mem (s : string) data st :
  wf st →
  wf (mem.DeclareFromTemplate grow s data st).1 ∧
  DeclareFromTemplate s data (abs st)
  = (abs (mem.DeclareFromTemplate grow s data st).1,
     (mem.DeclareFromTemplate grow s data st).2).
Proof.
  destruct st as [h g]. intros Hwf.
  unfold DeclareFromTemplate, mem.DeclareFromTemplate. simpl.
  destruct (renderTemplate_mem s data h g) as [Hd ->].
  destruct (mem.renderTemplate s data g) as [g1 [bs|err]]; simpl in *.
  - assert (wf (h, g1)) as Hwf1 by by apply (wf_importer h g).
    destruct (parser_ParseFile _ bs) as [f|errs]; [|done].
    by apply declareDecls_mem.
  - split; [|done]. by apply (wf_importer h g).
Qed.

(** What a call appends, whatever it returns. *)
Lemma DeclareFromTemplate_appended (s : string) data (g : Generator I) :
  decls (DeclareFromTemplate s data g).1 = decls g ++ appended s data g.
Proof.
  unfold DeclareFromTemplate, appended.
  pose proof (renderTemplate_decls s data g) as Hd.
  destruct (renderTemplate s data g) as [g1 [bs|err]]; simpl in *.
  - destruct (parser_ParseFile _ bs) as [f|errs]; simpl.
    + by rewrite declareDecls_until, Hd.
    + by rewrite app_nil_r.
  - by rewrite app_nil_r.
Qed.

Lemma Write_steps fs st h1 decls0 h2 decls1 h3 decls2 :
  mem.make (1 + mem.len (mem.decls st.2)) st.1 = (h1, decls0) →
  match importDecl (mem.importer st.2) with
  | Some d => mem.append grow h1 decls0 [d]
  | None => (h1, decls0)
  end = (h2, decls1) →
  mem.append grow h2 decls1 (mem.elements h2 (mem.decls st.2))
    = (h3, decls2) →
  mem.Write grow fs st
  = ((h3, st.2),
     format_Node fs {| ast.FileName := "todo";
                       ast.Decls := mem.elements h3 decls2 |}).
Proof. unfold mem.Write. by intros -> -> ->. Qed.

(** [Write] in memory: it hands to [format.Node] the file of [writeFile],
    writes to the array it makes and to no other, and leaves the generator
    as it is. *)
Lemma Write_mem fs st :
  wf st →
  (mem.Write grow fs st).1.2 = st.2 ∧
  (∀ a, a ∈ dom st.1 → (mem.Write grow fs st).1.1 !! a = st.1 !! a) ∧
  wf (mem.Write grow fs st).1 ∧
  abs (mem.Write grow fs st).1 = abs st ∧
  (mem.Write grow fs st).2 = format_Node fs (writeFile (abs st)).
Proof.
  destruct st as [h g]. unfold wf. simpl. intros Hwf.
  destruct (mem.make (1 + mem.len (mem.decls g)) h) as [h1 decls0] eqn:Hmake.
  destruct (make_spec _ _ _ _ Hmake)
    as (Hnew & Hkeep1 & Hdom1 & Hwf0 & Hnil & Hlen0 & Hcap0).
  (* the import declaration goes to the new array *)
  assert (∃ h2 decls1,
    match importDecl (mem.importer g) with
    | Some d => mem.append grow h1 decls0 [d]
    | None => (h1, decls0)
    end = (h2, decls1) ∧
    mem.wfSlice h2 decls1 ∧
    mem.elements h2 decls1 = option_list (importDecl (mem.importer g)) ∧
    (∀ a, a ∈ dom h → h2 !! a = h !! a) ∧ dom h ⊆ dom h2 ∧
    (mem.array decls1 ∉ dom h))
    as (h2 & decls1 & Himp & Hwf1 & Helems1 & Hkeep2 & Hdom2 & Hnew1).
  { destruct (importDecl (mem.importer g)) as [d|]; simpl.
    - destruct (mem.append grow h1 decls0 [d]) as [h2 decls1] eqn:Happ.
      destruct (append_spec _ _ _ _ _ Hwf0 Happ)
        as (Hwf1 & Helems & _ & Hkeep & _ & Hdom & Harr).
      exists h2, decls1. rewrite Helems, Hnil.
      split_and!; try done.
      + intros a Ha. rewrite Hkeep; [by apply Hkeep1|set_solver|].
        by intros ->.
      + set_solver.
      + destruct Harr as [->|?]; set_solver.
    - exists h1, decls0. split_and!; try done; set_solver. }
  (* and so do the declarations of the generator *)
  assert (mem.elements h2 (mem.decls g) = mem.elements h (mem.decls g)
          ∧ mem.wfSlice h2 (mem.decls g)) as [Hsame Hwfg].
  { destruct (wfSlice_frame h h2 (mem.decls g) Hwf) as [? ?]; [|done].
    intros Hcap. apply Hkeep2.
    destruct Hwf as (ds & rest & _ & _ & [?|Hcells]); [done|].
    apply elem_of_dom. by rewrite Hcells. }
  destruct (mem.append grow h2 decls1 (mem.elements h2 (mem.decls g)))
    as [h3 decls2] eqn:Happ.
  rewrite (Write_steps fs (h, g) _ _ _ _ _ _ Hmake Himp Happ). simpl.
  destruct (append_spec _ _ _ _ _ Hwf1 Happ)
    as (Hwf2 & Helems2 & _ & Hkeep3 & _ & Hdom3 & _).
  rewrite Hsame in Helems2.
  assert (∀ a, a ∈ dom h → h3 !! a = h !! a) as Hkeep.
  { intros a Ha. rewrite Hkeep3; [by apply Hkeep2|set_solver|].
    by intros ->. }
  destruct (wfSlice_frame h h3 (mem.decls g) Hwf) as [Hwf3 Hsame3].
  { intros Hcap. apply Hkeep.
    destruct Hwf as (ds & rest & _ & _ & [?|Hcells]); [done|].
    apply elem_of_dom. by rewrite Hcells. }
  split_and!; [done|done|done| |].
  - unfold abs, declarations. simpl. by rewrite Hsame3.
  - rewrite Helems2, Helems1. unfold writeFile, abs, declarations. simpl.
    by destruct (importDecl (mem.importer g)).
Qed.

End MemoryProps.

Section MemoryClaims.
Context {I : Type} {IM : Importer I} {lib : GoLib}.
Variable grow : nat → nat → nat.

(** C8.  In memory, where [g.decls] is a slice over a backing array:
    [Write] leaves the generator and every backing array there was as they
    were, and returns what [format.Node] makes of the import declaration of
    the importer, if there is one, followed by the declarations of the
    generator; so a second [Write] with the same file set formats the same
    file and returns the same.  A [DeclareFromTemplate] after a [Write]
    comes to what it comes to without the [Write]: it returns the same and
    leaves the same importer and declarations, which are those there were
    followed by the declarations that the call appends; and these are what
    the next [Write] formats, after the import declaration. *)
Theorem Write_idempotent fs (st : mem.Heap * mem.Generator I) :
  wf st →
  (mem.Write grow fs st).1.2 = st.2 ∧
  (∀ a, a ∈ dom st.1 → (mem.Write grow fs st).1.1 !! a = st.1 !! a) ∧
  wf (mem.Write grow fs st).1 ∧
  (mem.Write grow fs st).2
  = format_Node fs
      {| ast.FileName := "todo";
         ast.Decls := option_list (importDecl (mem.importer st.2))
                        ++ declarations st |} ∧
  (mem.Write grow fs (mem.Write grow fs st).1).2 = (mem.Write grow fs st).2 ∧
  ∀ (s : string) data,
    wf (mem.DeclareFromTemplate grow s data (mem.Write grow fs st).1).1 ∧
    (mem.DeclareFromTemplate grow s data (mem.Write grow fs st).1).2
    = (mem.DeclareFromTemplate grow s data st).2 ∧
    abs (mem.DeclareFromTemplate grow s data (mem.Write grow fs st).1).1
    = abs (mem.DeclareFromTemplate grow s data st).1 ∧
    declarations (mem.DeclareFromTemplate grow s data (mem.Write grow fs st).1).1
    = declarations st ++ appended s data (abs st) ∧
    (mem.Write grow fs
       (mem.DeclareFromTemplate grow s data (mem.Write grow fs st).1).1).2
    = format_Node fs
        {| ast.FileName := "todo";
           ast.Decls :=
             option_list
               (importDecl
                  (mem.importer
                     (mem.DeclareFromTemplate grow s data
                        (mem.Write grow fs st).1).1.2))
               ++ declarations st ++ appended s data (abs st) |}.
Proof.
  intros Hwf.
  destruct (Write_mem grow fs st Hwf) as (Hgen & Harrays & Hwf1 & Habs & Hout).
  assert (∀ st', wf st' →
    (mem.Write grow fs st').2
    = format_Node fs
        {| ast.FileName := "todo";
           ast.Decls := option_list (importDecl (mem.importer st'.2))
                          ++ declarations st' |}) as Hformat.
  { intros st' Hwf'. destruct (Write_mem grow fs st' Hwf') as (_&_&_&_& ->).
    unfold writeFile. simpl. by destruct (importDecl (mem.importer st'.2)). }
  split_and!; [done|done|done|by apply Hformat| |].
  - destruct (Write_mem grow fs _ Hwf1) as (_ & _ & _ & _ & ->).
    by rewrite Hout, Habs.
  - intros s data.
    destruct (DeclareFromTemplate_mem grow s data _ Hwf1) as [Hwf2 Hafter].
    destruct (DeclareFromTemplate_mem grow s data _ Hwf) as [_ Hplain].
    rewrite Habs, Hplain in Hafter.
    pose proof (f_equal fst Hafter) as Hstate.
    pose proof (f_equal snd Hafter) as Hret. cbn [fst snd] in Hstate, Hret.
    assert (declarations
              (mem.DeclareFromTemplate grow s data (mem.Write grow fs st).1).1
            = declarations st ++ appended s data (abs st)) as Hdecls.
    { change (decls (abs (mem.DeclareFromTemplate grow s data
                            (mem.Write grow fs st).1).1)
              = decls (abs st) ++ appended s data (abs st)).
      rewrite <-Hstate, <-DeclareFromTemplate_appended. by rewrite Hplain. }
    clear Hafter.
    split_and!; [done|done|done|done|].
    by rewrite (Hformat _ Hwf2), Hdecls.
Qed.

End MemoryClaims.

Section MemoryExamples.

(** After three calls the slice of the generator has the length 3 and the
    capacity 4: the [Write] copies the three declarations to an array of
    its own, after the import declaration, and the call after it stores
    its declaration in the fourth cell of the array of the generator. *)
Lemma Write_idempotent_witness :
  wf threeInMemory ∧
  mem.decls threeInMemory.2 = mem.mkSlice 2 3 4 ∧
  declarations threeInMemory
  = [ast.GenDecl ast.TYPE [ast.TypeSpec "myType" "int32"];
     ast.GenDecl ast.VAR [ast.ValueSpec "counter" "int64"];
     ast.GenDecl ast.VAR [ast.ValueSpec "x" "util"]] ∧
  (mem.Write (lib := gofrag.go) doubling () threeInMemory).1.1 !! 2
  = threeInMemory.1 !! 2 ∧
  (mem.Write (lib := gofrag.go) doubling ()
     (mem.Write (lib := gofrag.go) doubling () threeInMemory).1).2
  = format_Node (GoLib := gofrag.go) ()
      {| ast.FileName := "todo";
         ast.Decls :=
           [ast.GenDecl ast.IMPORT
              [ast.ImportSpec_ (ast.mkImportSpec (Some "util") "a/util");
               ast.ImportSpec_ (ast.mkImportSpec (Some "util2") "b/util")];
            ast.GenDecl ast.TYPE [ast.TypeSpec "myType" "int32"];
            ast.GenDecl ast.VAR [ast.ValueSpec "counter" "int64"];
            ast.GenDecl ast.VAR [ast.ValueSpec "x" "util"]] |} ∧
  (mem.DeclareFromTemplate (lib := gofrag.go) doubling typeTemplate otherData
     (mem.Write (lib := gofrag.go) doubling () threeInMemory).1).2 = Nil ∧
  declarations
    (mem.DeclareFromTemplate (lib := gofrag.go) doubling typeTemplate
       otherData (mem.Write (lib := gofrag.go) doubling () threeInMemory).1).1
  = [ast.GenDecl ast.TYPE [ast.TypeSpec "myType" "int32"];
     ast.GenDecl ast.VAR [ast.ValueSpec "counter" "int64"];
     ast.GenDecl ast.VAR [ast.ValueSpec "x" "util"];
     ast.GenDecl ast.TYPE [ast.TypeSpec "other" "int32"]].
Proof.
  assert (wf threeInMemory) as Hwf.
  { exists [ast.GenDecl ast.TYPE [ast.TypeSpec "myType" "int32"];
            ast.GenDecl ast.VAR [ast.ValueSpec "counter" "int64"];
            ast.GenDecl ast.VAR [ast.ValueSpec "x" "util"]], [None].
    split_and!; [reflexivity..|right; reflexivity]. }
  destruct (Write_idempotent (lib := gofrag.go) doubling () threeInMemory Hwf)
    as (_ & Harrays & _ & Hout & Hsecond & Hdeclare).
  destruct (Hdeclare typeTemplate otherData)
    as (_ & Hret & _ & Hdecls & _).
  split_and!; [exact Hwf|reflexivity|reflexivity| | | |].
  - apply Harrays. apply elem_of_dom. by eexists.
  - rewrite Hsecond, Hout. reflexivity.
  - rewrite Hret. reflexivity.
  - rewrite Hdecls. reflexivity.
Defined.

(** The array of the generator after that call, and what the next [Write]
    returns. *)
Example declare_after_Write :
  let st := (mem.DeclareFromTemplate (lib := gofrag.go) doubling
               typeTemplate otherData
               (mem.Write (lib := gofrag.go) doubling () threeInMemory).1).1
  in
  mem.decls st.2 = mem.mkSlice 2 4 4 ∧
  st.1 !! 2
  = Some [Some (ast.GenDecl ast.TYPE [ast.TypeSpec "myType" "int32"]);
          Some (ast.GenDecl ast.VAR [ast.ValueSpec "counter" "int64"]);
          Some (ast.GenDecl ast.VAR [ast.ValueSpec "x" "util"]);
          Some (ast.GenDecl ast.TYPE [ast.TypeSpec "other" "int32"])] ∧
  (mem.Write (lib := gofrag.go) doubling () st).2
  = inl ("package todo" +:+ LF +:+ LF
         +:+ "import (" +:+ LF
         +:+ gofrag.TAB +:+ "util " +:+ quoted "a/util" +:+ LF
         +:+ gofrag.TAB +:+ "util2 " +:+ quoted "b/util" +:+ LF
         +:+ ")" +:+ LF +:+ LF
         +:+ "type myType int32" +:+ LF +:+ LF
         +:+ "var counter int64" +:+ LF +:+ LF
         +:+ "var x util" +:+ LF +:+ LF
         +:+ "type other int32" +:+ LF).
Proof. split_and!; reflexivity. Qed.

End MemoryExamples.

(** * Properties of frame/server.go *)

Section ServerProps.
Import frame.
Context {E H : Type}.
Variable Handle : string → H → H * bool * (string + E).
Variable writeResult : list string → string → bool * option E.
Implicit Types (s : Server) (hs : H) (inputs : list (ReadResult E)).

(** No step of a round changes [shouldCloseWriter], and while it is false
    no step closes the reader or the writer. *)
Lemma quiet_refl s : quiet s s.
Proof. by split. Qed.

Lemma quiet_trans s1 s2 s3 : quiet s1 s2 → quiet s2 s3 → quiet s1 s3.
Proof.
  intros [H12 Hc12] [H23 Hc23]. split; [congruence|].
  intros Hscw. destruct (Hc12 Hscw) as [<- <-]. apply Hc23. congruence.
Qed.

Lemma quiet_stopIf s b s' : quiet s s' → quiet s (stopIf E b s').
Proof.
  intros Hq. apply (quiet_trans _ _ _ Hq).
  by destruct b, s' as [[] [] [] ? []].
Qed.

Lemma quiet_afterRead s s' : quiet s s' → quiet s (afterRead s').
Proof. intros Hq. by apply (quiet_trans _ _ _ Hq). Qed.

Lemma quiet_afterWrite s res s' : quiet s s' → quiet s (afterWrite res s').
Proof. intros Hq. by apply (quiet_trans _ _ _ Hq). Qed.

Ltac quiet_steps :=
  repeat first
    [ apply quiet_refl | apply quiet_stopIf | apply quiet_afterRead
    | apply quiet_afterWrite ].

(** The case analysis of one turn of the loop. *)
Ltac loop_cases inputs hs s IH :=
  induction inputs as [|[st [req|err]] rest IH]; intros hs s;
    cbn [serveLoop replies readStops readValue];
    (destruct (running s) eqn:Hrun; [|]);
    [ | |
      destruct (Handle req hs) as [[hs1 st1] [res|err]] eqn:Hh;
      [destruct (writeResult
                   (frames (w (stopIf E st1 (stopIf E st (afterRead s)))))
                   res) as [st2 [err|]] eqn:Hw|] | |
      destruct (negb (running (stopIf E st (afterRead s)))) eqn:Hneg | ];
    cbn [serverOf].

Lemma serveLoop_quiet inputs hs s :
  quiet s (serverOf (serveLoop Handle writeResult inputs hs s)).
Proof.
  revert hs s. loop_cases inputs hs s IH; try by quiet_steps.
  eapply quiet_trans; [|apply IH]. quiet_steps.
Qed.

(** What a round does to the frames handed to the writer and to the number
    of reads. *)
Lemma round_read b s :
  frames (w (stopIf E b (afterRead s))) = frames (w s) ∧
  reads (r (stopIf E b (afterRead s))) = S (reads (r s)).
Proof. by destruct b, s as [[] [] [] ? []]. Qed.

Lemma round_handle b1 b s :
  frames (w (stopIf E b1 (stopIf E b (afterRead s)))) = frames (w s) ∧
  reads (r (stopIf E b1 (stopIf E b (afterRead s)))) = S (reads (r s)).
Proof. by destruct b1, b, s as [[] [] [] ? []]. Qed.

Lemma round_write b2 b1 b res s :
  frames (w (stopIf E b2 (afterWrite res
               (stopIf E b1 (stopIf E b (afterRead s))))))
    = frames (w s) ++ [res] ∧
  reads (r (stopIf E b2 (afterWrite res
              (stopIf E b1 (stopIf E b (afterRead s))))))
    = S (reads (r s)).
Proof. by destruct b2, b1, b, s as [[] [] [] ? []]. Qed.

Lemma serveLoop_frames inputs hs s :
  ∃ l,
    frames (w (serverOf (serveLoop Handle writeResult inputs hs s)))
      = frames (w s) ++ l ∧
    l `prefix_of` replies Handle inputs hs ∧
    reads (r s) + length l
      ≤ reads (r (serverOf (serveLoop Handle writeResult inputs hs s)))
      ≤ reads (r s) + S (length l) ∧
    (∀ s' hs', serveLoop Handle writeResult inputs hs s = Blocks s' hs' →
       l = replies Handle inputs hs ∧ length l = length inputs).
Proof.
  revert hs s. loop_cases inputs hs s IH.
  - exists []. rewrite app_nil_r.
    split_and!; [done|apply prefix_nil|simpl; lia..|done].
  - exists []. rewrite app_nil_r.
    split_and!; [done|apply prefix_nil|simpl; lia..|done].
  - destruct (round_write st2 st1 st res s) as [-> ->].
    exists [res]. split_and!; [done| |simpl; lia..|done].
    by apply prefix_cons, prefix_nil.
  - destruct (IH hs1 (stopIf E st2 (afterWrite res
                (stopIf E st1 (stopIf E st (afterRead s))))))
      as (l & Hl & Hpre & Hreads & Hblocks).
    destruct (round_write st2 st1 st res s) as [Hf Hr].
    rewrite Hf, Hr in *. exists (res :: l).
    split_and!; [by rewrite Hl, <-app_assoc|by apply prefix_cons
                |simpl; lia..|].
    intros s' hs' Hb. destruct (Hblocks s' hs' Hb) as [-> Hlen].
    split; [done|]. simpl. by rewrite Hlen.
  - destruct (round_handle st1 st s) as [-> ->].
    exists []. rewrite app_nil_r.
    split_and!; [done|apply prefix_nil|simpl; lia..|done].
  - exists []. rewrite app_nil_r.
    split_and!; [done|apply prefix_nil|simpl; lia..|done].
  - destruct (round_read st s) as [-> ->].
    exists []. rewrite app_nil_r.
    split_and!; [done|apply prefix_nil|simpl; lia..|done].
  - destruct (round_read st s) as [-> ->].
    exists []. rewrite app_nil_r.
    split_and!; [done|apply prefix_nil|simpl; lia..|done].
  - exists []. rewrite app_nil_r.
    split_and!; [done|apply prefix_nil|simpl; lia..|done].
Qed.

(** The loop returns nil only with a server that is stopped, waits only
    with one that runs, and never returns the error of [Serve] itself. *)
Lemma serveLoop_running inputs hs s :
  match serveLoop Handle writeResult inputs hs s with
  | Returns None s' _ => running s' = false
  | Returns (Some alreadyRunning) _ _ => False
  | Returns (Some (handedOn _)) _ _ => True
  | Blocks s' _ => running s' = true
  end.
Proof.
  revert hs s. loop_cases inputs hs s IH; try done.
  - apply IH.
  - by apply negb_true_iff.
Qed.

(** When nobody stops the server, it runs on, and the loop ends by an
    error of the reader, the handler or the writer, or waits. *)
Lemma serveLoop_undisturbed inputs hs s :
  undisturbed Handle writeResult inputs → running s = true →
  running (serverOf (serveLoop Handle writeResult inputs hs s)) = true ∧
  ∀ s' hs', serveLoop Handle writeResult inputs hs s ≠ Returns None s' hs'.
Proof.
  intros (Hin & Hh & Hw). revert hs s Hin.
  induction inputs as [|[st [req|err]] rest IH]; intros hs s Hin Hrun;
    cbn [serveLoop readStops readValue]; rewrite Hrun; [done|..];
    inv Hin; simpl in *; subst.
  - pose proof (Hh req hs) as Hstop.
    destruct (Handle req hs) as [[hs1 st1] [res|err]]; simpl in *; subst;
      [|done].
    cbn [stopIf].
    pose proof (Hw (frames (w (afterRead s))) res) as Hstop.
    destruct (writeResult _ res) as [st2 [err|]]; simpl in *; subst; [done|].
    by apply IH.
  - cbn [stopIf afterRead running]. by rewrite Hrun.
Qed.

Lemma closeReaderWriter_closes s :
  readerCloses (r (closeReaderWriter s)) = S (readerCloses (r s)) ∧
  writerCloses (w (closeReaderWriter s)) = S (writerCloses (w s)) ∧
  frames (w (closeReaderWriter s)) = frames (w s) ∧
  reads (r (closeReaderWriter s)) = reads (r s) ∧
  running (closeReaderWriter s) = running s ∧
  shouldCloseWriter (closeReaderWriter s) = shouldCloseWriter s.
Proof. done. Qed.

(** On a server that is not running, [Serve] does not return the error of
    a running server. *)
Lemma Serve_starts inputs hs s s' hs' :
  running s = false →
  Serve Handle writeResult inputs hs s
    ≠ Returns (Some alreadyRunning) s' hs'.
Proof.
  intros Hrun. unfold Serve. rewrite Hrun.
  set (s1 := {| r := r s; w := w s; running := true;
                shouldCloseReader := shouldCloseReader s;
                shouldCloseWriter := shouldCloseWriter s |}).
  pose proof (serveLoop_running inputs hs s1) as Hloop.
  by destruct (serveLoop _ _ _ _ _) as [[[|e]|] s2 hs2|s2 hs2].
Qed.

(** X6.  A [Serve] that starts on a server whose [shouldCloseWriter] is
    false, as [NewServer] leaves it, closes the reader and the writer
    once, by its deferred call, on whatever path it returns, also when it
    was stopped; while it waits for a frame it has closed neither. *)
Theorem Serve_closes_once inputs hs s :
  running s = false → shouldCloseWriter s = false →
  match Serve Handle writeResult inputs hs s with
  | Returns _ s' _ =>
      readerCloses (r s') = S (readerCloses (r s)) ∧
      writerCloses (w s') = S (writerCloses (w s))
  | Blocks s' _ =>
      readerCloses (r s') = readerCloses (r s) ∧
      writerCloses (w s') = writerCloses (w s)
  end.
Proof.
  intros Hrun Hscw. unfold Serve. rewrite Hrun.
  set (s1 := {| r := r s; w := w s; running := true;
                shouldCloseReader := shouldCloseReader s;
                shouldCloseWriter := shouldCloseWriter s |}).
  destruct (serveLoop_quiet inputs hs s1) as [_ Hcloses].
  destruct (Hcloses Hscw) as [Hr Hw].
  destruct (serveLoop _ _ _ _ _) as [err s2 hs2|s2 hs2]; simpl in *.
  - by rewrite Hr, Hw.
  - done.
Qed.

(** X7.  [Serve] returns nil only when the server was stopped: the server
    it leaves is not running.  It returns its own error exactly when the
    server was running already, and then leaves it untouched; and a
    [Serve] that waits for a frame has a running server. *)
Theorem Serve_nil_only_when_stopped inputs hs s :
  match Serve Handle writeResult inputs hs s with
  | Returns None s' _ => running s = false ∧ running s' = false
  | Returns (Some alreadyRunning) s' hs' =>
      running s = true ∧ s' = s ∧ hs' = hs
  | Returns (Some (handedOn _)) _ _ => running s = false
  | Blocks s' _ => running s = false ∧ running s' = true
  end.
Proof.
  unfold Serve. destruct (running s) eqn:Hrun; [done|].
  set (s1 := {| r := r s; w := w s; running := true;
                shouldCloseReader := shouldCloseReader s;
                shouldCloseWriter := shouldCloseWriter s |}).
  pose proof (serveLoop_running inputs hs s1) as Hloop.
  by destruct (serveLoop _ _ _ _ _) as [[[|e]|] s2 hs2|s2 hs2].
Qed.

(** X8.  When nobody calls [Stop], a [Serve] that returns has met an error
    of the reader, the handler or the writer and hands it on; the server
    still counts as running, so that another [Serve] returns the error of
    a running server at once, reading nothing, until [Stop] is called;
    after [Stop] a [Serve] starts again. *)
Theorem Serve_error_leaves_running inputs hs s err s' hs' :
  undisturbed Handle writeResult inputs → running s = false →
  Serve Handle writeResult inputs hs s = Returns err s' hs' →
  (∃ e, err = Some (handedOn e)) ∧
  running s' = true ∧
  (∀ inputs2 hs2,
     Serve Handle writeResult inputs2 hs2 s'
       = Returns (Some alreadyRunning) s' hs2) ∧
  (∀ inputs2 hs2 s2,
     Serve Handle writeResult inputs2 hs2 (Stop (E := E) s').1
       ≠ Returns (Some alreadyRunning) s2 hs2).
Proof.
  intros Hquiet Hrun. unfold Serve at 1. rewrite Hrun.
  set (s1 := {| r := r s; w := w s; running := true;
                shouldCloseReader := shouldCloseReader s;
                shouldCloseWriter := shouldCloseWriter s |}).
  destruct (serveLoop_undisturbed inputs hs s1 Hquiet eq_refl)
    as [Hstill Hnot].
  pose proof (serveLoop_running inputs hs s1) as Hloop.
  destruct (serveLoop _ _ _ _ _) as [err2 s2 hs2|s2 hs2] eqn:Hs; [|done].
  intros [= <- <- <-]. simpl in Hstill.
  assert (running (closeReaderWriter s2) = true) as Hrun' by done.
  split_and!.
  - destruct err2 as [[|e]|]; [done|by eexists|by destruct (Hnot s2 hs2)].
  - done.
  - intros inputs2 hs3. unfold Serve. by rewrite Hrun'.
  - intros inputs2 hs3 s3. apply Serve_starts.
    by destruct s2 as [[] [] [] ? []].
Qed.

(** X9.  Whatever [Serve] comes to, the frames that it has handed to the
    writer are, after those handed to it before, the responses of the
    handler to the frames read, one for one and in their order; a frame is
    read only after the response to the one before was handed over; and a
    [Serve] that waits has answered every frame that there was. *)
Theorem Serve_replies_in_order inputs hs s :
  ∃ l,
    frames (w (serverOf (Serve Handle writeResult inputs hs s)))
      = frames (w s) ++ l ∧
    l `prefix_of` replies Handle inputs hs ∧
    reads (r s) + length l
      ≤ reads (r (serverOf (Serve Handle writeResult inputs hs s)))
      ≤ reads (r s) + S (length l) ∧
    (∀ s' hs', Serve Handle writeResult inputs hs s = Blocks s' hs' →
       l = replies Handle inputs hs ∧ length l = length inputs).
Proof.
  unfold Serve. destruct (running s) eqn:Hrun.
  { exists []. rewrite app_nil_r.
    split_and!; [done|apply prefix_nil|simpl; lia..|done]. }
  set (s1 := {| r := r s; w := w s; running := true;
                shouldCloseReader := shouldCloseReader s;
                shouldCloseWriter := shouldCloseWriter s |}).
  destruct (serveLoop_frames inputs hs s1) as (l & Hl & Hpre & Hreads & Hb).
  exists l.
  destruct (serveLoop _ _ _ _ _) as [err s2 hs2|s2 hs2]; simpl in *.
  - split_and!; [done|done|lia|lia|]. by intros.
  - split_and!; [done|done|lia|lia|]. intros s' hs' [= <- <-]. by eapply Hb.
Qed.

(** X10.  [Stop] on a server that is not running changes nothing, and a
    second [Stop] changes nothing that the first has left; [Stop] never
    touches the frames handed to the writer, and it closes the reader and
    the writer only on a running server whose [shouldCloseWriter] is
    set. *)
Theorem Stop_idempotent s :
  Stop (E := E) (Stop (E := E) s).1 = Stop (E := E) s ∧
  (running s = false → (Stop (E := E) s).1 = s) ∧
  running (Stop (E := E) s).1 = false ∧
  frames (w (Stop (E := E) s).1) = frames (w s) ∧
  (readerCloses (r (Stop (E := E) s).1) =
     if running s && shouldCloseWriter s then S (readerCloses (r s))
     else readerCloses (r s)) ∧
  (writerCloses (w (Stop (E := E) s).1) =
     if running s && shouldCloseWriter s then S (writerCloses (w s))
     else writerCloses (w s)).
Proof. by destruct s as [[] [] [] ? []]. Qed.

End ServerProps.

Section ServerExamples.
Import frame.

Lemma Serve_closes_once_witness :
  running idle = false ∧ shouldCloseWriter idle = false ∧
  Serve echo accepting twoThenEOF () idle
    = Returns (Some (handedOn "EOF"))
        {| r := mkReader 3 1; w := mkWriter ["a"; "b"] 1; running := true;
           shouldCloseReader := false; shouldCloseWriter := false |} () ∧
  readerCloses (r (serverOf (Serve echo accepting twoThenEOF () idle))) = 1.
Proof.
  split_and!; [reflexivity..|].
  pose proof (Serve_closes_once echo accepting twoThenEOF () idle
                eq_refl eq_refl) as Hcloses.
  simpl in Hcloses. apply Hcloses.
Defined.

Lemma Serve_error_leaves_running_witness :
  undisturbed echo accepting twoThenEOF ∧ running idle = false ∧
  Serve echo accepting twoThenEOF () idle
    = Returns (Some (handedOn "EOF")) afterEOF () ∧
  running afterEOF = true.
Proof.
  assert (undisturbed echo accepting twoThenEOF) as Hquiet.
  { split_and!; [repeat constructor|done|done]. }
  split_and!; [done|reflexivity..|].
  apply (Serve_error_leaves_running echo accepting twoThenEOF () idle
           (Some (handedOn "EOF")) afterEOF () Hquiet eq_refl eq_refl).
Defined.

(** A handler that stops the server at [quit]: the response to [quit] is
    still handed to the writer, [Serve] returns nil and the frame after it
    is not read. *)
Example Serve_until_quit :
  Serve echoUntilQuit accepting
    [mkRead false (inl "a"); mkRead false (inl "quit");
     mkRead false (inl "b")] () idle
  = Returns None
      {| r := mkReader 2 1; w := mkWriter ["a"; "quit"] 1; running := false;
         shouldCloseReader := true; shouldCloseWriter := false |} ().
Proof. reflexivity. Qed.

End ServerExamples.
